(** * Noter voice server: the streaming text-to-speech relay

    A verification development for [learning_page_logic/voice_server.py]:
    the [TextStreamBuffer] class and the three concurrent activities of
    [generate_audio] (the [stream_claude] thread, the [stream_fish_tts]
    thread and the generator's own read loop over [audio_queue]).
    The second half covers the other endpoints: the text-only stream,
    the extraction of JSON and code from the responses of the model in
    [voice_server.py], [api.py], [backend_server.py] and
    [txt_to_note.py], the lecture and sample helpers of [api.py],
    [create_class] and [evaluate_answers].

    Modelling conventions.
    - A Python [str] is a [string]; its characters are the code points
      below 256.  [bytes] is a list of [Byte.byte].
    - [queue.Queue] is a FIFO list: [put] appends at the tail, [get] takes
      the head.  A [get(timeout=0.1)] on a queue that is empty when the
      wait expires raises [queue.Empty].
    - The two vendor streams (the Anthropic text stream, the Fish Audio
      session) are given by scripts: the values they deliver and whether
      they end normally or by raising an exception.  A stream that hangs
      is a thread that is no longer scheduled.
    - The scheduler is a list of thread identifiers; every shared-memory
      access of the source is one atomic step of the thread performing it. *)

From Stdlib Require Import List Arith Lia Bool NArith Ascii String.
From Stdlib Require Import Strings.Byte.
Import ListNotations.

Local Open Scope string_scope.
Local Open Scope list_scope.

(* ================================================================== *)
(** ** Python strings and [json] *)
(* ================================================================== *)

Module Py.

Definition dquote : ascii := "034"%char.
Definition bslash : ascii := "092"%char.
Definition newline : ascii := "010"%char.

(** [bool(text)] for a [str]: only the empty string is falsy. *)
Definition truthy (text : string) : bool :=
  match text with
  | EmptyString => false
  | String _ _ => true
  end.

Definition str1 (c : ascii) : string := String c EmptyString.

Definition hex_digit (n : N) : ascii :=
  if (n <? 10)%N then ascii_of_N (48 + n) else ascii_of_N (87 + n).

(** One character of [json.encoder.py_encode_basestring_ascii]:
    the quote, the backslash and every character outside the range from
    space to tilde are replaced, through [ESCAPE_DCT] or by a [\uXXXX]
    escape with four lower-case hexadecimal digits. *)
Definition escape_char (c : ascii) : string :=
  let n := N_of_ascii c in
  if (n =? 34)%N then String bslash (str1 dquote)
  else if (n =? 92)%N then String bslash (str1 bslash)
  else if (n =? 10)%N then String bslash "n"
  else if (n =? 13)%N then String bslash "r"
  else if (n =? 9)%N then String bslash "t"
  else if (n =? 8)%N then String bslash "b"
  else if (n =? 12)%N then String bslash "f"
  else if ((n <? 32) || (126 <? n))%N then
    String bslash
      (String "u" (String "0" (String "0"
         (String (hex_digit (n / 16)) (str1 (hex_digit (n mod 16)))))))
  else str1 c.

Fixpoint escape (s : string) : string :=
  match s with
  | EmptyString => EmptyString
  | String c r => escape_char c ++ escape r
  end.

(** [py_encode_basestring_ascii(s)]: the escaped text between quotes. *)
Definition encode_basestring_ascii (s : string) : string :=
  String dquote (escape s ++ str1 dquote).

(** A JSON object whose members are strings, as an ordered [dict]. *)
Definition dict := list (string * string).

Fixpoint dict_get (k : string) (d : dict) : option string :=
  match d with
  | [] => None
  | (k', v) :: r => if String.eqb k k' then Some v else dict_get k r
  end.

(** [d[k] = v]: an existing key keeps its position. *)
Fixpoint dict_set (k v : string) (d : dict) : dict :=
  match d with
  | [] => [(k, v)]
  | (k', v') :: r =>
      if String.eqb k k' then (k', v) :: r else (k', v') :: dict_set k v r
  end.

Fixpoint join (sep : string) (l : list string) : string :=
  match l with
  | [] => EmptyString
  | [x] => x
  | x :: r => x ++ sep ++ join sep r
  end.

Definition dump_member (kv : string * string) : string :=
  encode_basestring_ascii (fst kv) ++ ": " ++ encode_basestring_ascii (snd kv).

(** [json.dumps(d)] with the default separators [(', ', ': ')] and
    [ensure_ascii=True], for a dict of strings. *)
Definition json_dumps (d : dict) : string :=
  "{" ++ join ", " (map dump_member d) ++ "}".

(** *** Decoding *)

Definition is_ws (c : ascii) : bool :=
  let n := N_of_ascii c in
  ((n =? 32) || (n =? 9) || (n =? 10) || (n =? 13))%N.

Fixpoint skip_ws (s : string) : string :=
  match s with
  | EmptyString => EmptyString
  | String c r => if is_ws c then skip_ws r else s
  end.

Definition hex_value (c : ascii) : option N :=
  let n := N_of_ascii c in
  if ((48 <=? n) && (n <=? 57))%N then Some (n - 48)%N
  else if ((97 <=? n) && (n <=? 102))%N then Some (n - 87)%N
  else if ((65 <=? n) && (n <=? 70))%N then Some (n - 55)%N
  else None.

Definition hex4 (a b c d : ascii) : option N :=
  match hex_value a, hex_value b, hex_value c, hex_value d with
  | Some x, Some y, Some z, Some w =>
      Some (((x * 16 + y) * 16 + z) * 16 + w)%N
  | _, _, _, _ => None
  end.

(** [json.decoder.BACKSLASH] *)
Definition unescape (e : ascii) : option ascii :=
  let n := N_of_ascii e in
  if (n =? 34)%N then Some dquote
  else if (n =? 92)%N then Some bslash
  else if (n =? 47)%N then Some "/"%char
  else if (n =? 98)%N then Some "008"%char
  else if (n =? 102)%N then Some "012"%char
  else if (n =? 110)%N then Some "010"%char
  else if (n =? 114)%N then Some "013"%char
  else if (n =? 116)%N then Some "009"%char
  else None.

Definition cons_result (c : ascii) (r : option (string * string))
  : option (string * string) :=
  match r with
  | Some (v, rest) => Some (String c v, rest)
  | None => None
  end.

(** [py_scanstring] (strict): reads the text after an opening quote up to
    the closing one and returns the decoded value and what follows.
    [None] stands for [JSONDecodeError]; a [\uXXXX] escape above 255 is
    outside the modelled character range and is refused as well. *)
Fixpoint scanstring (s : string) : option (string * string) :=
  match s with
  | EmptyString => None
  | String c rest =>
      if Ascii.eqb c dquote then Some (EmptyString, rest)
      else if Ascii.eqb c bslash then
        match rest with
        | EmptyString => None
        | String e rest1 =>
            if Ascii.eqb e "u"%char then
              match rest1 with
              | String h1 (String h2 (String h3 (String h4 rest2))) =>
                  match hex4 h1 h2 h3 h4 with
                  | Some n =>
                      if (n <? 256)%N
                      then cons_result (ascii_of_N n) (scanstring rest2)
                      else None
                  | None => None
                  end
              | _ => None
              end
            else
              match unescape e with
              | Some ch => cons_result ch (scanstring rest1)
              | None => None
              end
        end
      else if (N_of_ascii c <? 32)%N then None
      else cons_result c (scanstring rest)
  end.

(** The member loop of [json.decoder.JSONObject]; [s] stands at the
    opening quote of a key.  Only string values are decoded. *)
Fixpoint parse_members (fuel : nat) (s : string) (acc : dict)
  : option (dict * string) :=
  match fuel with
  | O => None
  | S fuel' =>
      match s with
      | String q r =>
          if negb (Ascii.eqb q dquote) then None else
          match scanstring r with
          | None => None
          | Some (k, r1) =>
              match skip_ws r1 with
              | String colon r2 =>
                  if negb (Ascii.eqb colon ":"%char) then None else
                  match skip_ws r2 with
                  | String q2 r3 =>
                      if negb (Ascii.eqb q2 dquote) then None else
                      match scanstring r3 with
                      | None => None
                      | Some (v, r4) =>
                          let acc' := dict_set k v acc in
                          match skip_ws r4 with
                          | String sep r5 =>
                              if Ascii.eqb sep ","%char
                              then parse_members fuel' (skip_ws r5) acc'
                              else if Ascii.eqb sep "}"%char
                              then Some (acc', r5)
                              else None
                          | EmptyString => None
                          end
                      end
                  | EmptyString => None
                  end
              | EmptyString => None
              end
          end
      | EmptyString => None
      end
  end.

(** [json.loads(s)] restricted to objects with string members (every
    line written to [audio_queue] is one); anything else is [None], which
    the caller's bare [except] treats like a decoding error. *)
Definition json_loads (s : string) : option dict :=
  match skip_ws s with
  | String open r =>
      if negb (Ascii.eqb open "{"%char) then None else
      match skip_ws r with
      | EmptyString => None
      | String c r' =>
          if Ascii.eqb c "}"%char then
            match skip_ws r' with
            | EmptyString => Some []
            | String _ _ => None
            end
          else
            match parse_members (String.length s) (String c r') [] with
            | Some (d, tail) =>
                match skip_ws tail with
                | EmptyString => Some d
                | String _ _ => None
                end
            | None => None
            end
      end
  | EmptyString => None
  end.

(** *** [base64.b64encode] *)

Definition b64_char (n : N) : ascii :=
  if (n <? 26)%N then ascii_of_N (65 + n)
  else if (n <? 52)%N then ascii_of_N (71 + n)
  else if (n <? 62)%N then ascii_of_N (n - 4)
  else if (n =? 62)%N then "+"%char
  else "/"%char.

Fixpoint b64encode (data : list byte) : string :=
  match data with
  | [] => EmptyString
  | [a] =>
      let x := Byte.to_N a in
      String (b64_char (x / 4))
        (String (b64_char ((x mod 4) * 16)) "==")
  | [a; b] =>
      let x := Byte.to_N a in
      let y := Byte.to_N b in
      String (b64_char (x / 4))
        (String (b64_char ((x mod 4) * 16 + y / 16))
           (String (b64_char ((y mod 16) * 4)) "="))
  | a :: b :: c :: r =>
      let x := Byte.to_N a in
      let y := Byte.to_N b in
      let z := Byte.to_N c in
      String (b64_char (x / 4))
        (String (b64_char ((x mod 4) * 16 + y / 16))
           (String (b64_char ((y mod 16) * 4 + z / 64))
              (String (b64_char (z mod 64)) (b64encode r))))
  end.

End Py.

(* ================================================================== *)
(** ** The voice pathway of [voice_server.py] *)
(* ================================================================== *)

Module VoiceServer.
Import Py.

(** *** [class TextStreamBuffer] *)

Record TextStreamBuffer := mkBuffer {
  queue : list string;   (* self.queue = queue.Queue() *)
  done : bool            (* self.done *)
}.

(** [__init__] *)
Definition new_buffer : TextStreamBuffer := mkBuffer [] false.

(** [add]: [if text: self.queue.put(text)] *)
Definition add (text : string) (b : TextStreamBuffer) : TextStreamBuffer :=
  if truthy text then mkBuffer (queue b ++ [text]) (done b) else b.

(** [finish]: [self.done = True] *)
Definition finish (b : TextStreamBuffer) : TextStreamBuffer :=
  mkBuffer (queue b) true.

Definition queue_empty {A : Type} (q : list A) : bool :=
  match q with
  | [] => true
  | _ :: _ => false
  end.

(** The generator [__iter__], one shared-memory access per step:
    - [IterTest]: the loop test [not self.done or not self.queue.empty()];
    - [IterGet]: [self.queue.get(timeout=0.1)], which yields the head or
      raises [queue.Empty];
    - [IterEmpty]: the handler, [if self.done: break] else [continue];
    - [IterStop]: the generator has returned. *)
Inductive IterPc := IterTest | IterGet | IterEmpty | IterStop.

Definition iter_step (pc : IterPc) (b : TextStreamBuffer)
  : IterPc * TextStreamBuffer * option string :=
  match pc with
  | IterTest =>
      if negb (done b) || negb (queue_empty (queue b))
      then (IterGet, b, None)
      else (IterStop, b, None)
  | IterGet =>
      match queue b with
      | x :: q => (IterTest, mkBuffer q (done b), Some x)
      | [] => (IterEmpty, b, None)
      end
  | IterEmpty =>
      if done b then (IterStop, b, None) else (IterTest, b, None)
  | IterStop => (IterStop, b, None)
  end.

(** Running the generator with no other thread touching the buffer:
    the fragments it yields once it has returned, [None] while it has not
    returned within [fuel] steps. *)
Fixpoint iterate (fuel : nat) (pc : IterPc) (b : TextStreamBuffer)
  : option (list string) :=
  match fuel with
  | O => None
  | S fuel' =>
      match pc with
      | IterStop => Some []
      | _ =>
          let '(pc', b', y) := iter_step pc b in
          match iterate fuel' pc' b', y with
          | Some l, Some x => Some (x :: l)
          | Some l, None => Some l
          | None, _ => None
          end
      end
  end.

(** [list(buffer)] *)
Definition list_buffer (fuel : nat) (b : TextStreamBuffer) :=
  iterate fuel IterTest b.

(** [for f in fragments: buffer.add(f)] *)
Definition add_all (fragments : list string) (b : TextStreamBuffer) :=
  fold_left (fun b f => add f b) fragments b.

(** *** The lines written to [audio_queue] *)

Definition text_line (text_chunk : string) : string :=
  json_dumps [("type", "text"); ("content", text_chunk)] ++ str1 newline.

Definition error_line (content : string) : string :=
  json_dumps [("type", "error"); ("content", content)] ++ str1 newline.

Definition audio_line (audio_chunk : list byte) : string :=
  json_dumps [("type", "audio"); ("content", b64encode audio_chunk)]
  ++ str1 newline.

Definition done_line : string :=
  json_dumps [("type", "done")] ++ str1 newline.

(** [f"TTS Error: {str(e)}"] *)
Definition tts_error (msg : string) : string := "TTS Error: " ++ msg.

(** The test after [yield chunk] in the read loop:
    [json.loads(chunk).get('type') == 'done'], with any exception
    swallowed by the bare [except: pass]. *)
Definition is_done (chunk : string) : bool :=
  match json_loads chunk with
  | Some chunk_data =>
      match dict_get "type" chunk_data with
      | Some t => String.eqb t "done"
      | None => false
      end
  | None => false
  end.

(** *** Threads *)

(** How a vendor stream ends: normally, or by raising an exception [e]
    with [str(e) = msg]. *)
Inductive Outcome := Completed | Raised (msg : string).

(** [stream_claude]: at the [for] over [stream.text_stream] with the
    deltas still to come; between [text_buffer.add] and
    [audio_queue.put]; in the [except] handler between
    [text_buffer.finish()] and [audio_queue.put]; returned. *)
Inductive ClaudePc :=
| ClaudeNext (full_text : string) (pending : list string) (o : Outcome)
| ClaudePut (full_text text_chunk : string) (pending : list string)
    (o : Outcome)
| ClaudeExcept (msg : string)
| ClaudeDead.

(** What the Fish Audio session does next: pull on its text source (one
    step of the iterator of [text_buffer]) or deliver an audio chunk. *)
Inductive FishEvent := FishPull | FishAudio (audio_chunk : list byte).

(** [stream_fish_tts]: inside [ws_session.tts(..., text_buffer)] with the
    state of the iterator over [text_buffer], or returned. *)
Inductive FishPc :=
| FishRun (it : IterPc) (pending : list FishEvent) (o : Outcome)
| FishDead.

(** The read loop of [generate_audio]: at [audio_queue.get(timeout=0.1)];
    in the [queue.Empty] handler at [claude_thread.is_alive()], at
    [fish_thread.is_alive()], at [audio_queue.empty()]; after the loop at
    the two [join(timeout=5)]; returned. *)
Inductive RelayPc :=
| RelayGet | RelayClaudeAlive | RelayFishAlive | RelayQueueEmpty
| RelayJoinClaude | RelayJoinFish | RelayStopped.

Inductive Tid := Claude | Fish | Relay.

Record State := mkState {
  text_buffer : TextStreamBuffer;
  audio_queue : list string;
  claude_thread : ClaudePc;
  fish_thread : FishPc;
  relay : RelayPc
}.

(** What a step does that others can observe. *)
Inductive Action :=
| Add (text : string)              (* text_buffer.add(text) *)
| Finish                           (* text_buffer.finish() *)
| Speak (fragment : string)        (* the iterator yields to the session *)
| Put (who : Tid) (line : string)  (* audio_queue.put(line) *)
| Yield (chunk : string).          (* generate_audio yields chunk *)

Definition claude_alive (s : State) : bool :=
  match claude_thread s with
  | ClaudeDead => false
  | _ => true
  end.

Definition fish_alive (s : State) : bool :=
  match fish_thread s with
  | FishDead => false
  | _ => true
  end.

(** One step of the thread running [stream_claude]. *)
Definition stream_claude (s : State) : State * list Action :=
  match claude_thread s with
  | ClaudeNext full_text (text_chunk :: pending) o =>
      (mkState (add text_chunk (text_buffer s)) (audio_queue s)
         (ClaudePut (full_text ++ text_chunk) text_chunk pending o)
         (fish_thread s) (relay s),
       [Add text_chunk])
  | ClaudePut full_text text_chunk pending o =>
      (mkState (text_buffer s) (audio_queue s ++ [text_line text_chunk])
         (ClaudeNext full_text pending o) (fish_thread s) (relay s),
       [Put Claude (text_line text_chunk)])
  | ClaudeNext _ [] Completed =>
      (mkState (finish (text_buffer s)) (audio_queue s)
         ClaudeDead (fish_thread s) (relay s),
       [Finish])
  | ClaudeNext _ [] (Raised msg) =>
      (mkState (finish (text_buffer s)) (audio_queue s)
         (ClaudeExcept msg) (fish_thread s) (relay s),
       [Finish])
  | ClaudeExcept msg =>
      (mkState (text_buffer s) (audio_queue s ++ [error_line msg])
         ClaudeDead (fish_thread s) (relay s),
       [Put Claude (error_line msg)])
  | ClaudeDead => (s, [])
  end.

(** The session advances the iterator of [text_buffer] by one step. *)
Definition fish_pull (it : IterPc) (pending : list FishEvent) (o : Outcome)
  (s : State) : State * list Action :=
  let '(it', b', y) := iter_step it (text_buffer s) in
  (mkState b' (audio_queue s) (claude_thread s)
     (FishRun it' pending o) (relay s),
   match y with
   | Some fragment => [Speak fragment]
   | None => []
   end).

(** One step of the thread running [stream_fish_tts].  The session is
    given [text_buffer] as its text source and consumes it: in the SDK a
    sender task iterates the source and is joined before [tts] returns.
    So the [for] loop ends normally only once the iterator of
    [text_buffer] has stopped, and until then the session keeps pulling;
    an exception can end the loop at any point, whatever the iterator
    does.  After a normal end the thread writes the [done] line, in the
    [except] branch the error line; then it returns. *)
Definition stream_fish_tts (s : State) : State * list Action :=
  match fish_thread s with
  | FishRun it (FishPull :: pending) o => fish_pull it pending o s
  | FishRun it (FishAudio audio_chunk :: pending) o =>
      (mkState (text_buffer s) (audio_queue s ++ [audio_line audio_chunk])
         (claude_thread s) (FishRun it pending o) (relay s),
       [Put Fish (audio_line audio_chunk)])
  | FishRun IterStop [] Completed =>
      (mkState (text_buffer s) (audio_queue s ++ [done_line])
         (claude_thread s) FishDead (relay s),
       [Put Fish done_line])
  | FishRun it [] Completed => fish_pull it [] Completed s
  | FishRun _ [] (Raised msg) =>
      (mkState (text_buffer s)
         (audio_queue s ++ [error_line (tts_error msg)])
         (claude_thread s) FishDead (relay s),
       [Put Fish (error_line (tts_error msg))])
  | FishDead => (s, [])
  end.

Definition set_relay (pc : RelayPc) (s : State) : State :=
  mkState (text_buffer s) (audio_queue s) (claude_thread s) (fish_thread s)
    pc.

(** One step of the read loop of [generate_audio]. *)
Definition generate_audio (s : State) : State * list Action :=
  match relay s with
  | RelayGet =>
      match audio_queue s with
      | chunk :: q =>
          (mkState (text_buffer s) q (claude_thread s) (fish_thread s)
             (if is_done chunk then RelayJoinClaude else RelayGet),
           [Yield chunk])
      | [] => (set_relay RelayClaudeAlive s, [])
      end
  | RelayClaudeAlive =>
      (set_relay (if claude_alive s then RelayGet else RelayFishAlive) s, [])
  | RelayFishAlive =>
      (set_relay (if fish_alive s then RelayGet else RelayQueueEmpty) s, [])
  | RelayQueueEmpty =>
      (set_relay
         (if queue_empty (audio_queue s) then RelayJoinClaude else RelayGet)
         s, [])
  | RelayJoinClaude => (set_relay RelayJoinFish s, [])
  | RelayJoinFish => (set_relay RelayStopped s, [])
  | RelayStopped => (s, [])
  end.

Definition step (t : Tid) (s : State) : State * list Action :=
  match t with
  | Claude => stream_claude s
  | Fish => stream_fish_tts s
  | Relay => generate_audio s
  end.

Fixpoint exec (sched : list Tid) (s : State) : State * list Action :=
  match sched with
  | [] => (s, [])
  | t :: sched' =>
      let (s1, a1) := step t s in
      let (s2, a2) := exec sched' s1 in
      (s2, a1 ++ a2)
  end.

(** One request: what the two vendor streams will deliver. *)
Record Session := mkSession {
  model_deltas : list string;
  model_outcome : Outcome;
  tts_events : list FishEvent;
  tts_outcome : Outcome
}.

(** The state once both threads have been started. *)
Definition start (c : Session) : State :=
  mkState new_buffer []
    (ClaudeNext EmptyString (model_deltas c) (model_outcome c))
    (FishRun IterTest (tts_events c) (tts_outcome c))
    RelayGet.

Definition run (c : Session) (sched : list Tid) : State * list Action :=
  exec sched (start c).

(** *** Projections of a trace *)

Fixpoint adds (tr : list Action) : list string :=
  match tr with
  | [] => []
  | Add t :: r => t :: adds r
  | _ :: r => adds r
  end.

Fixpoint spoken (tr : list Action) : list string :=
  match tr with
  | [] => []
  | Speak f :: r => f :: spoken r
  | _ :: r => spoken r
  end.

Fixpoint yields (tr : list Action) : list string :=
  match tr with
  | [] => []
  | Yield c :: r => c :: yields r
  | _ :: r => yields r
  end.

Fixpoint tagged_puts (tr : list Action) : list (Tid * string) :=
  match tr with
  | [] => []
  | Put w l :: r => (w, l) :: tagged_puts r
  | _ :: r => tagged_puts r
  end.

Definition puts (tr : list Action) : list string :=
  map snd (tagged_puts tr).

Definition tid_eqb (a b : Tid) : bool :=
  match a, b with
  | Claude, Claude | Fish, Fish | Relay, Relay => true
  | _, _ => false
  end.

Definition puts_of (w : Tid) (tr : list Action) : list string :=
  map snd (filter (fun p => tid_eqb (fst p) w) (tagged_puts tr)).

Definition finished (tr : list Action) : bool :=
  existsb (fun a => match a with Finish => true | _ => false end) tr.

End VoiceServer.


(* ================================================================== *)
(** ** Observations on executions *)
(* ================================================================== *)

Module Observations.
Import Py VoiceServer.

(** The four shapes of a line, read back from the wire. *)
Inductive Event :=
| EText (fragment : string)
| EAudio (b64 : string)
| EError (message : string)
| EDone.

(** A chunk decodes to an event when it is a JSON object whose [type]
    is one of the four tags; [text], [audio] and [error] carry a string
    [content], [done] carries none. *)
Definition decode_event (chunk : string) : option Event :=
  match json_loads chunk with
  | Some d =>
      match dict_get "type" d, dict_get "content" d with
      | Some ty, Some content =>
          if String.eqb ty "text" then Some (EText content)
          else if String.eqb ty "audio" then Some (EAudio content)
          else if String.eqb ty "error" then Some (EError content)
          else None
      | Some ty, None => if String.eqb ty "done" then Some EDone else None
      | None, _ => None
      end
  | None => None
  end.

(** The states an execution can reach, with the actions so far. *)
Inductive Reach (c : Session) : State -> list Action -> Prop :=
| reach_start : Reach c (start c) []
| reach_step s tr t :
    Reach c s tr -> Reach c (fst (step t s)) (tr ++ snd (step t s)).

(** [c in s] for a character. *)
Fixpoint occurs (c : ascii) (s : string) : bool :=
  match s with
  | EmptyString => false
  | String x r => Ascii.eqb x c || occurs c r
  end.

(** The shape of a line: a dumped object that is either the bare [done]
    object or a [type] among [text], [audio], [error] with a string
    [content], followed by the newline. *)
Definition well_formed_line (chunk : string) : Prop :=
  exists d,
    chunk = (json_dumps d ++ str1 newline)%string
    /\ occurs newline (json_dumps d) = false
    /\ json_loads chunk = Some d
    /\ ((d = [("type", "done")] /\ dict_get "content" d = None)
        \/ exists ty content,
             d = [("type", ty); ("content", content)]
             /\ (ty = "text" \/ ty = "audio" \/ ty = "error")).

(** The fragments of the [text] events among some lines, and the
    messages of the [error] events. *)
Fixpoint text_events (lines : list string) : list string :=
  match lines with
  | [] => []
  | l :: r =>
      match decode_event l with
      | Some (EText fragment) => fragment :: text_events r
      | _ => text_events r
      end
  end.

Fixpoint error_events (lines : list string) : list string :=
  match lines with
  | [] => []
  | l :: r =>
      match decode_event l with
      | Some (EError message) => message :: error_events r
      | _ => error_events r
      end
  end.

(** The [queue.Empty] handler of the read loop run to its end with no
    other thread in between: the three tests, as far as they go. *)
Definition on_empty (s : State) : State :=
  let s1 := fst (generate_audio s) in
  match relay s1 with
  | RelayFishAlive =>
      let s2 := fst (generate_audio s1) in
      match relay s2 with
      | RelayQueueEmpty => fst (generate_audio s2)
      | _ => s2
      end
  | _ => s1
  end.

(** The lines [stream_claude] writes in a whole run, and those it still
    has to write from a given point. *)
Definition outcome_lines (o : Outcome) : list string :=
  match o with
  | Completed => []
  | Raised msg => [error_line msg]
  end.

Definition claude_lines (c : Session) : list string :=
  map text_line (model_deltas c) ++ outcome_lines (model_outcome c).

Definition claude_pending_adds (pc : ClaudePc) : list string :=
  match pc with
  | ClaudeNext _ pending _ => pending
  | ClaudePut _ _ pending _ => pending
  | ClaudeExcept _ | ClaudeDead => []
  end.

Definition claude_pending_puts (pc : ClaudePc) : list string :=
  match pc with
  | ClaudeNext _ pending o => map text_line pending ++ outcome_lines o
  | ClaudePut _ text_chunk pending o =>
      text_line text_chunk :: map text_line pending ++ outcome_lines o
  | ClaudeExcept msg => [error_line msg]
  | ClaudeDead => []
  end.

(** The deltas whose [text] line is still to be written. *)
Definition claude_pending_text (pc : ClaudePc) : list string :=
  match pc with
  | ClaudeNext _ pending _ => pending
  | ClaudePut _ text_chunk pending _ => text_chunk :: pending
  | ClaudeExcept _ | ClaudeDead => []
  end.

(** [stream_claude] has left its [for] loop. *)
Definition claude_finished (pc : ClaudePc) : bool :=
  match pc with
  | ClaudeExcept _ | ClaudeDead => true
  | ClaudeNext _ _ _ | ClaudePut _ _ _ _ => false
  end.

(** The same for [stream_fish_tts]. *)
Fixpoint audio_lines (evs : list FishEvent) : list string :=
  match evs with
  | [] => []
  | FishPull :: r => audio_lines r
  | FishAudio audio_chunk :: r => audio_line audio_chunk :: audio_lines r
  end.

(** The audio chunks a session delivers. *)
Fixpoint audio_chunks (evs : list FishEvent) : list (list byte) :=
  match evs with
  | [] => []
  | FishPull :: r => audio_chunks r
  | FishAudio audio_chunk :: r => audio_chunk :: audio_chunks r
  end.

Definition final_line (o : Outcome) : string :=
  match o with
  | Completed => done_line
  | Raised msg => error_line (tts_error msg)
  end.

Definition fish_lines (c : Session) : list string :=
  audio_lines (tts_events c) ++ [final_line (tts_outcome c)].

Definition fish_pending_puts (pc : FishPc) : list string :=
  match pc with
  | FishRun _ pending o => audio_lines pending ++ [final_line o]
  | FishDead => []
  end.

(** The read loop has been left ([break]). *)
Definition relay_left (pc : RelayPc) : bool :=
  match pc with
  | RelayJoinClaude | RelayJoinFish | RelayStopped => true
  | _ => false
  end.

Definition not_done (chunk : string) : Prop := is_done chunk = false.

(** [l] merges [l1] and [l2], each kept in its order. *)
Inductive Interleave {A : Type} : list A -> list A -> list A -> Prop :=
| il_nil : Interleave [] [] []
| il_left x l1 l2 l : Interleave l1 l2 l -> Interleave (x :: l1) l2 (x :: l)
| il_right x l1 l2 l : Interleave l1 l2 l -> Interleave l1 (x :: l2) (x :: l).

(** How often thread [t] is scheduled. *)
Definition turns (t : Tid) (sched : list Tid) : nat :=
  List.length (filter (tid_eqb t) sched).

(** *** Invariants of the reachable states *)

(** Bookkeeping of [stream_claude]: what it has done and what is left
    add up to its script, and [done] is set exactly when it has left its
    loop. *)
Record ClaudeInv (c : Session) (s : State) (tr : list Action) : Prop := {
  ci_adds : adds tr ++ claude_pending_adds (claude_thread s) = model_deltas c;
  ci_puts : puts_of Claude tr ++ claude_pending_puts (claude_thread s)
            = claude_lines c;
  ci_done : done (text_buffer s) = claude_finished (claude_thread s);
  ci_fin : finished tr = done (text_buffer s);
  ci_outcome :
    match claude_thread s with
    | ClaudeNext _ _ o | ClaudePut _ _ _ o => o = model_outcome c
    | ClaudeExcept msg => model_outcome c = Raised msg
    | ClaudeDead => True
    end
}.

(** Bookkeeping of [stream_fish_tts]; its iterator stops only after
    having seen [done] set. *)
Record FishInv (c : Session) (s : State) (tr : list Action) : Prop := {
  fi_puts : puts_of Fish tr ++ fish_pending_puts (fish_thread s)
            = fish_lines c;
  fi_outcome :
    match fish_thread s with
    | FishRun _ _ o => o = tts_outcome c
    | FishDead => True
    end;
  fi_stop :
    match fish_thread s with
    | FishRun IterStop _ _ => done (text_buffer s) = true
    | FishRun _ _ _ => True
    | FishDead => tts_outcome c = Completed -> done (text_buffer s) = true
    end
}.

(** Where the read loop stands, and how it can have been left. *)
Definition RelayInv (s : State) (tr : list Action) : Prop :=
  match relay s with
  | RelayGet | RelayClaudeAlive => Forall not_done (yields tr)
  | RelayFishAlive =>
      Forall not_done (yields tr) /\ claude_thread s = ClaudeDead
  | RelayQueueEmpty =>
      Forall not_done (yields tr) /\ claude_thread s = ClaudeDead
      /\ fish_thread s = FishDead
  | RelayJoinClaude | RelayJoinFish | RelayStopped =>
      (exists pre chunk,
          yields tr = pre ++ [chunk] /\ is_done chunk = true
          /\ Forall not_done pre)
      \/ (Forall not_done (yields tr) /\ claude_thread s = ClaudeDead
          /\ fish_thread s = FishDead /\ audio_queue s = [])
  end.

(** *** Steps a thread still needs *)

Definition claude_steps_left (pc : ClaudePc) : nat :=
  match pc with
  | ClaudeNext _ pending Completed => 2 * List.length pending + 1
  | ClaudeNext _ pending (Raised _) => 2 * List.length pending + 2
  | ClaudePut _ _ pending Completed => 2 * List.length pending + 2
  | ClaudePut _ _ pending (Raised _) => 2 * List.length pending + 3
  | ClaudeExcept _ => 1
  | ClaudeDead => 0
  end.

(** Steps of the iterator up to [IterStop] once [done] is set, with [n]
    fragments queued. *)
Definition iter_steps_left (it : IterPc) (n : nat) : nat :=
  match it with
  | IterTest => 2 * n + 1
  | IterGet => match n with O => 2 | S _ => 2 * n end
  | IterEmpty => 1
  | IterStop => 0
  end.

Definition fish_steps_left (s : State) : nat :=
  match fish_thread s with
  | FishRun it pending Completed =>
      List.length pending
      + iter_steps_left it (List.length (queue (text_buffer s))) + 1
  | FishRun _ pending (Raised _) => List.length pending + 1
  | FishDead => 0
  end.

(** Steps of the read loop up to its return once both threads have. *)
Definition relay_steps_left (s : State) : nat :=
  let n := List.length (audio_queue s) in
  match relay s with
  | RelayGet => n + 6
  | RelayClaudeAlive => match n with O => 5 | S _ => n + 9 end
  | RelayFishAlive => match n with O => 4 | S _ => n + 8 end
  | RelayQueueEmpty => match n with O => 3 | S _ => n + 7 end
  | RelayJoinClaude => 2
  | RelayJoinFish => 1
  | RelayStopped => 0
  end.

(** A number of turns that is enough for each phase of a session. *)
Definition enough (c : Session) : nat :=
  2 * List.length (model_deltas c) + List.length (tts_events c) + 11.

End Observations.

(* ================================================================== *)
(** ** Python [str] methods used by the other endpoints *)
(* ================================================================== *)

Module PyStr.
Import Py.
Local Open Scope string_scope.

(** [str.isspace] for one character (code points below 256). *)
Definition isspace (c : ascii) : bool :=
  let n := N_of_ascii c in
  (((9 <=? n) && (n <=? 13)) || ((28 <=? n) && (n <=? 32))
   || (n =? 133) || (n =? 160))%N.

Fixpoint lstrip (s : string) : string :=
  match s with
  | EmptyString => EmptyString
  | String c r => if isspace c then lstrip r else s
  end.

Fixpoint rstrip (s : string) : string :=
  match s with
  | EmptyString => EmptyString
  | String c r =>
      match rstrip r with
      | EmptyString => if isspace c then EmptyString else str1 c
      | String x y => String c (String x y)
      end
  end.

(** [s.strip()] *)
Definition strip (s : string) : string := rstrip (lstrip s).

(** [s] has white space only (or is empty): [not s.strip()]. *)
Fixpoint blank (s : string) : bool :=
  match s with
  | EmptyString => true
  | String c r => isspace c && blank r
  end.

(** [s[n:]] *)
Fixpoint drop (n : nat) (s : string) : string :=
  match n, s with
  | O, _ => s
  | S k, String _ r => drop k r
  | S _, EmptyString => EmptyString
  end.

(** [s[:n]] *)
Fixpoint take (n : nat) (s : string) : string :=
  match n, s with
  | O, _ => EmptyString
  | S k, String c r => String c (take k r)
  | S _, EmptyString => EmptyString
  end.

(** [s.startswith(p)] *)
Fixpoint startswith (p s : string) : bool :=
  match p with
  | EmptyString => true
  | String a p' =>
      match s with
      | EmptyString => false
      | String b s' => Ascii.eqb a b && startswith p' s'
      end
  end.

(** [s.partition(sep)] at the first occurrence of [sep]: what is before
    it and what is after it; [None] when [sep] does not occur. *)
Fixpoint partition (sep s : string) : option (string * string) :=
  if startswith sep s then Some (EmptyString, drop (String.length sep) s)
  else
    match s with
    | EmptyString => None
    | String c r =>
        match partition sep r with
        | Some (before, after) => Some (String c before, after)
        | None => None
        end
    end.

(** [s.partition(sep)[0]]: what is before the first [sep], all of [s]
    when there is none. *)
Definition before (sep s : string) : string :=
  match partition sep s with
  | Some (b, _) => b
  | None => s
  end.

(** [s[:-1]] *)
Fixpoint but_last (s : string) : string :=
  match s with
  | EmptyString => EmptyString
  | String c EmptyString => EmptyString
  | String c r => String c (but_last r)
  end.

(** [sep in s] *)
Definition contains (sep s : string) : bool :=
  match partition sep s with
  | Some _ => true
  | None => false
  end.

(** [s.split(sep)] for a non-empty [sep]: cut at the occurrences of
    [sep], leftmost first, not overlapping.  The recursion is on what is
    left of [s], which gets shorter at each cut. *)
Fixpoint split_fuel (fuel : nat) (sep s : string) : list string :=
  match partition sep s with
  | None => [s]
  | Some (before, after) =>
      match fuel with
      | O => [before]
      | S fuel' => before :: split_fuel fuel' sep after
      end
  end.

Definition split (sep s : string) : list string :=
  split_fuel (String.length s) sep s.

(** [s.split(sep, 1)] *)
Definition split1 (sep s : string) : list string :=
  match partition sep s with
  | None => [s]
  | Some (before, after) => [before; after]
  end.




(** [''.join(chunks)] *)
Fixpoint concat_all (chunks : list string) : string :=
  match chunks with
  | [] => EmptyString
  | x :: r => x ++ concat_all r
  end.

End PyStr.

(* ================================================================== *)
(** ** The other endpoints *)
(* ================================================================== *)

Module Endpoints.
Import Py PyStr VoiceServer.
Local Open Scope string_scope.

Definition fence : string := "```".

(** *** [voice_server.py]: [ask_text_only] *)

(** The chunks the generator [generate_text] yields: a [text] line per
    delta of the model stream, then the [done] line, or the [error] line
    of the exception that ended the stream. *)
Definition generate_text (deltas : list string) (o : Outcome)
  : list string :=
  (map text_line deltas
   ++ [match o with
       | Completed => done_line
       | Raised msg => error_line msg
       end])%list.

(** *** [voice_server.py]: [generate_flashcards], [generate_quiz] *)

(** [if len(content) > 2000: content = content[:2000] + "..."] *)
Definition limit_section (content : string) : string :=
  if Nat.ltb 2000 (String.length content) then take 2000 content ++ "..."
  else content.

(** *** [voice_server.py]: [generate_manim], [generate_manim_custom] *)

(** [re.search(opening + r'([\s\S]*?)\n```', text)], group 1: the text
    between the first [opening] and the first newline-and-fence after
    it. *)
Definition search_fenced (opening response_text : string) : option string :=
  match partition opening response_text with
  | Some (_, rest) =>
      match partition (String newline fence) rest with
      | Some (code, _) => Some code
      | None => None
      end
  | None => None
  end.

(** The code taken from the stripped response. *)
Definition manim_code (response_text : string) : string :=
  match search_fenced ("```python" ++ str1 newline) response_text with
  | Some code => code
  | None =>
      match search_fenced ("```" ++ str1 newline) response_text with
      | Some code => code
      | None => response_text
      end
  end.

(** The response holds a block: [opening], then some code, then a
    newline and a fence; this is when the regular expression matches. *)
Definition has_block (opening response_text : string) : Prop :=
  exists pre code post,
    response_text
    = pre ++ opening ++ code ++ String newline fence ++ post.

(** *** [api.py] and [backend_server.py]: fenced blocks by [split] *)

(** [text.split(tag)[1].split('```')[0].strip()]; [None] is the
    [IndexError] of an index out of range. *)
Definition fenced (tag response_text : string) : option string :=
  match nth_error (split tag response_text) 1 with
  | Some piece =>
      match nth_error (split fence piece) 0 with
      | Some inner => Some (strip inner)
      | None => None
      end
  | None => None
  end.

(** [parse_claude_json] up to [json.loads] (also [generate_flashcards] of
    [backend_server.py]). *)
Definition json_text (response_text : string) : option string :=
  if contains "```json" response_text then fenced "```json" response_text
  else if contains fence response_text then fenced fence response_text
  else Some (strip response_text).

(** [generate_quiz] and [evaluate_answers] of [backend_server.py]: the
    same, but a response without a fence is taken as it is. *)
Definition json_text_raw (response_text : string) : option string :=
  if contains "```json" response_text then fenced "```json" response_text
  else if contains fence response_text then fenced fence response_text
  else Some response_text.

(** [generate_manim] of [backend_server.py] and [generate_animation] of
    [api.py]. *)
Definition python_code (code : string) : option string :=
  if contains "```python" code then fenced "```python" code
  else if contains fence code then fenced fence code
  else Some code.

(** *** [txt_to_note.py]: [process_lecture] *)

Definition html_content (text : string) : option string :=
  if startswith "```html" text then fenced "```html" text
  else if startswith fence text then fenced fence text
  else Some text.

(** *** [api.py]: lectures and samples *)

Record NoteDTO := mkNote { note_id : string; content : string }.

Record LectureDTO := mkLecture {
  lecture_id : string;
  title : string;
  summary : string;
  notes : list NoteDTO
}.

Definition extract_notes_text (lecture : LectureDTO) : string :=
  join (String newline (str1 newline))
    ((if truthy (summary lecture)
      then [("Summary: " ++ summary lecture)%string] else [])
     ++ map content (notes lecture))%list.

(** [if not notes_text.strip(): raise HTTPException(status_code=400, ...)] *)
Definition no_notes_content (lecture : LectureDTO) : bool :=
  negb (truthy (strip (extract_notes_text lecture))).

(** [list_samples]: [f"{class_name}_{html_file.stem}"] *)
Definition sample_id (class_name stem : string) : string :=
  class_name ++ "_" ++ stem.

(** [get_sample]: [parts = sample_id.split('_', 1)]; [None] is the
    answer 400 for [len(parts) != 2]. *)
Definition parse_sample_id (id : string) : option (string * string) :=
  match split1 "_" id with
  | [class_name; file_stem] => Some (class_name, file_stem)
  | _ => None
  end.

(** *** [backend_server.py]: [create_class] *)



Section CreateClass.

(** [str.lower] *)
Variable lower : string -> string.



End CreateClass.

(** *** [voice_server.py]: JSON by regular expression *)

(** [s] up to its last [c], this [c] included. *)
Fixpoint upto_last (c : ascii) (s : string) : option string :=
  match s with
  | EmptyString => None
  | String x r =>
      match upto_last c r with
      | Some t => Some (String x t)
      | None => if Ascii.eqb x c then Some (str1 x) else None
      end
  end.

(** [re.search(r'\{[\s\S]*\}', text)] and [re.search(r'\[[\s\S]*\]', text)]:
    the match goes from the first opening character to the last closing
    one after it; [group] is its text. *)
Definition search_greedy (opening closing : ascii) (text : string)
  : option string :=
  match partition (str1 opening) text with
  | Some (_, rest) =>
      match upto_last closing rest with
      | Some body => Some (String opening body)
      | None => None
      end
  | None => None
  end.

(** *** [voice_server.py]: [evaluate_answers] *)

Definition lines (l : list string) : string := join (str1 newline) l.

Definition quoted (s : string) : string := String dquote (s ++ str1 dquote).

(** The prompt, from the three values as the f-string shows them. *)
Definition eval_prompt (question_text sample_answer user_answer : string)
  : string :=
  lines
    [ "Evaluate this student's free response answer.";
      "";
      "Question: " ++ question_text;
      "";
      "Sample/Expected Answer: " ++ sample_answer;
      "";
      "Student's Answer: " ++ user_answer;
      "";
      "Evaluate based on:";
      "1. Accuracy of information";
      "2. Completeness of answer";
      "3. Understanding of concepts";
      "4. Clarity of explanation";
      "";
      "Provide:";
      "- Score: 0 (incorrect/poor), 0.5 (partially correct/good), or 1 (correct/excellent)";
      "- Feedback: Brief constructive feedback (2-3 sentences)";
      "";
      "Return in this EXACT JSON format:";
      "{";
      "    " ++ quoted "score" ++ ": 0.5,";
      "    " ++ quoted "feedback" ++ ": "
        ++ quoted "Your answer shows understanding but could be more complete...";
      "}";
      "";
      "Return ONLY the JSON, nothing else." ].

(** How [claude_client.messages.create(...)] and the reading of
    [response.content[0].text] end: with the text, or with an
    exception. *)
Inductive Reply :=
| Replied (text : string)
| CallFailed (msg : string).

Section Evaluate.

(** The body of the request is a JSON object, [data]; what it holds is
    JSON of any shape, and the code runs on these values without knowing
    their types.  What it does with a value is a parameter here:
    - [Json] is the type of the values of [json.loads];
    - [bool_of v] is the truth value of [v], tested by [if not v];
    - [str_of v] is [str(v)], what an f-string shows;
    - [key_of v] is [v] as a key of a [dict]: values that are equal, as
      [1], [1.0] and [True], give one key of [Key]; an unhashable value
      gives the message of the [TypeError];
    - [loads] gives a value or the message of the [JSONDecodeError];
    - [create] is the model: the reply to the call of a given rank with a
      given prompt;
    - [jsonify] serialises the scores, or raises (for keys that cannot be
      sorted): [Some] is the message. *)
Variable Json : Type.
Variable bool_of : Json -> bool.
Variable str_of : Json -> string.
Variable Key : Type.
Variable Key_eq_dec : forall a b : Key, {a = b} + {a <> b}.
Variable key_of : Json -> Key + string.
Variable loads : string -> Json + string.
Variable create : nat -> string -> Reply.

(** An item of [questions].  The four values are those of
    [q.get('question', '')], [q.get('sample_answer', '')],
    [q.get('userAnswer', '')] and [q.get('index', 0)]; an item that is
    no object has no [get], and calling it raises an [AttributeError]
    with a message. *)
Inductive Item :=
| Object (question_text sample_answer user_answer index : Json)
| NotObject (error : string).

(** What [data.get('questions', [])] gives to the [for] loop: the items,
    or a value that cannot be iterated, with the message of the
    [TypeError]. *)
Inductive Questions :=
| Items (items : list Item)
| NotIterable (error : string).

(** An entry of [scores]: one of the two dicts the code builds, or what
    the model answered. *)
Inductive Score :=
| Fixed (score : nat) (feedback : string)
| Evaluation (evaluation : Json).

Definition Scores := list (Key * Score).

Fixpoint scores_set (k : Key) (v : Score) (scores : Scores) : Scores :=
  match scores with
  | [] => [(k, v)]
  | (j, w) :: r =>
      if Key_eq_dec k j then (j, v) :: r else (j, w) :: scores_set k v r
  end.

Fixpoint scores_get (k : Key) (scores : Scores) : option Score :=
  match scores with
  | [] => None
  | (j, w) :: r => if Key_eq_dec k j then Some w else scores_get k r
  end.

Variable jsonify : Scores -> option string.

(** [scores[index] = v]: the new scores, or the message of the
    [TypeError]. *)
Definition assign (index : Json) (v : Score) (scores : Scores)
  : Scores + string :=
  match key_of index with
  | inl k => inl (scores_set k v scores)
  | inr msg => inr msg
  end.

(** The loop [for q in questions], from a number of calls made and the
    scores so far: the scores at its end, or the message of the exception
    that left it, with the number of calls made. *)
Fixpoint evaluate_loop (items : list Item) (calls : nat) (scores : Scores)
  : (Scores + string) * nat :=
  match items with
  | [] => (inl scores, calls)
  | NotObject error :: _ => (inr error, calls)
  | Object question_text sample_answer user_answer index :: rest =>
      if bool_of user_answer then
        match create calls
                (eval_prompt (str_of question_text) (str_of sample_answer)
                   (str_of user_answer)) with
        | CallFailed msg => (inr msg, S calls)
        | Replied text =>
            let response_text := strip text in
            match search_greedy "{" "}" response_text with
            | Some group =>
                match loads group with
                | inl evaluation =>
                    match assign index (Evaluation evaluation) scores with
                    | inl scores' => evaluate_loop rest (S calls) scores'
                    | inr msg => (inr msg, S calls)
                    end
                | inr msg => (inr msg, S calls)
                end
            | None =>
                match assign index (Fixed 0 "Could not evaluate answer.")
                        scores with
                | inl scores' => evaluate_loop rest (S calls) scores'
                | inr msg => (inr msg, S calls)
                end
            end
        end
      else
        match assign index (Fixed 0 "No answer provided.") scores with
        | inl scores' => evaluate_loop rest calls scores'
        | inr msg => (inr msg, calls)
        end
  end.

(** The answer: the scores with the status 200, or the message of the
    exception with the status 500; with it, the number of calls made. *)
Inductive EvalAnswer :=
| EvalScores (scores : Scores)
| EvalError (error : string).

Definition evaluate_answers (questions : Questions) : EvalAnswer * nat :=
  match questions with
  | NotIterable error => (EvalError error, 0)
  | Items items =>
      match evaluate_loop items 0 [] with
      | (inl scores, calls) =>
          match jsonify scores with
          | None => (EvalScores scores, calls)
          | Some msg => (EvalError msg, calls)
          end
      | (inr msg, calls) => (EvalError msg, calls)
      end
  end.

(** The item is an object with an answer: the model is asked. *)
Definition answered (item : Item) : bool :=
  match item with
  | Object _ _ user_answer _ => bool_of user_answer
  | NotObject _ => false
  end.

(** The key of the item in [scores], when it is an object with a
    hashable [index]. *)
Definition item_key (item : Item) : option Key :=
  match item with
  | Object _ _ _ index =>
      match key_of index with
      | inl k => Some k
      | inr _ => None
      end
  | NotObject _ => None
  end.

End Evaluate.

Arguments Object {Json}.
Arguments NotObject {Json}.
Arguments Items {Json}.
Arguments NotIterable {Json}.
Arguments Fixed {Json}.
Arguments Evaluation {Json}.
Arguments EvalScores {Json Key}.
Arguments EvalError {Json Key}.

End Endpoints.

(* ================================================================== *)
(** ** Facts about the [json] model *)
(* ================================================================== *)

Module PyFacts.
Import Py.
Local Open Scope string_scope.

Lemma append_assoc (a b c : string) : (a ++ b) ++ c = a ++ (b ++ c).
Proof.
  induction a as [|x a IH]; simpl; [reflexivity | now rewrite IH].
Qed.

(** Decoding undoes the escaping of one character. *)
Lemma scan_escape_char (c : ascii) (t : string) :
  scanstring (escape_char c ++ t) = cons_result c (scanstring t).
Proof.
  destruct c as [b0 b1 b2 b3 b4 b5 b6 b7];
    destruct b0, b1, b2, b3, b4, b5, b6, b7; reflexivity.
Qed.

Lemma scan_escape (s t : string) :
  scanstring (escape s ++ String dquote t) = Some (s, t).
Proof.
  induction s as [|c s IH]; simpl.
  - reflexivity.
  - rewrite append_assoc, scan_escape_char, IH. reflexivity.
Qed.

Lemma encode_append (s t : string) :
  encode_basestring_ascii s ++ t = String dquote (escape s ++ String dquote t).
Proof.
  unfold encode_basestring_ascii, str1. simpl. now rewrite append_assoc.
Qed.

Ltac flatten_append :=
  unfold json_dumps, dump_member, encode_basestring_ascii, str1;
  cbn [join map fst snd append];
  repeat (rewrite append_assoc; cbn [append]).

(** One turn of the member loop on a dumped member. *)
Lemma parse_member (n : nat) (k v rest : string) (acc : dict) :
  parse_members (S n)
    (String dquote (escape k ++ String dquote
       (String ":" (String " "
          (String dquote (escape v ++ String dquote rest)))))) acc
  = match skip_ws rest with
    | String sep r5 =>
        if Ascii.eqb sep ","%char
        then parse_members n (skip_ws r5) (dict_set k v acc)
        else if Ascii.eqb sep "}"%char
        then Some (dict_set k v acc, r5)
        else None
    | EmptyString => None
    end.
Proof.
  cbn [parse_members]. change (Ascii.eqb dquote dquote) with true.
  cbn [negb]. rewrite scan_escape.
  change (skip_ws (String ":" ?r)) with (String ":" r). cbv beta iota.
  change (Ascii.eqb ":" ":") with true. cbn [negb].
  change (skip_ws (String " " (String dquote ?r))) with (String dquote r).
  cbv beta iota. change (Ascii.eqb dquote dquote) with true. cbn [negb].
  rewrite scan_escape. reflexivity.
Qed.

(** Decoding a dumped object of two members, followed by white space
    only (the newline that ends a line), gives the object back. *)
Lemma loads_dumps_2 (k1 v1 k2 v2 tail : string) :
  String.eqb k2 k1 = false ->
  skip_ws tail = EmptyString ->
  json_loads (json_dumps [(k1, v1); (k2, v2)] ++ tail)
  = Some [(k1, v1); (k2, v2)].
Proof.
  intros Hk Ht. flatten_append.
  unfold json_loads.
  match goal with
  | |- context [String.length (String ?a (String ?b ?X))] =>
      change (String.length (String a (String b X)))
        with (S (S (String.length X)))
  end.
  change (skip_ws (String "{" ?r)) with (String "{" r).
  cbv beta iota.
  change (Ascii.eqb "{" "{") with true. cbn [negb].
  match goal with
  | |- context [skip_ws (String dquote ?X)] =>
      change (skip_ws (String dquote X)) with (String dquote X)
  end.
  cbv beta iota. change (Ascii.eqb dquote "}") with false. cbv beta iota.
  rewrite parse_member.
  change (skip_ws (String "," ?r)) with (String "," r). cbv beta iota.
  change (Ascii.eqb "," ",") with true. cbv beta iota.
  match goal with
  | |- context [skip_ws (String " " (String dquote ?X))] =>
      change (skip_ws (String " " (String dquote X))) with (String dquote X)
  end.
  rewrite parse_member.
  change (skip_ws (String "}" ?r)) with (String "}" r). cbv beta iota.
  change (Ascii.eqb "}" ",") with false.
  change (Ascii.eqb "}" "}") with true. cbv beta iota.
  rewrite Ht. cbn [dict_set]. rewrite Hk. reflexivity.
Qed.

Lemma loads_dumps_1 (k v tail : string) :
  skip_ws tail = EmptyString ->
  json_loads (json_dumps [(k, v)] ++ tail) = Some [(k, v)].
Proof.
  intros Ht. flatten_append.
  unfold json_loads.
  match goal with
  | |- context [String.length (String ?a (String ?b ?X))] =>
      change (String.length (String a (String b X)))
        with (S (S (String.length X)))
  end.
  change (skip_ws (String "{" ?r)) with (String "{" r).
  cbv beta iota.
  change (Ascii.eqb "{" "{") with true. cbn [negb].
  match goal with
  | |- context [skip_ws (String dquote ?X)] =>
      change (skip_ws (String dquote X)) with (String dquote X)
  end.
  cbv beta iota. change (Ascii.eqb dquote "}") with false. cbv beta iota.
  rewrite parse_member.
  change (skip_ws (String "}" ?r)) with (String "}" r). cbv beta iota.
  change (Ascii.eqb "}" ",") with false.
  change (Ascii.eqb "}" "}") with true. cbv beta iota.
  rewrite Ht. reflexivity.
Qed.

End PyFacts.

(* ================================================================== *)
(** ** The token buffer on its own *)
(* ================================================================== *)

Module BufferFacts.
Import Py VoiceServer.

Lemma add_all_queue (fragments : list string) (b : TextStreamBuffer) :
  add_all fragments b
  = mkBuffer (queue b ++ filter truthy fragments) (done b).
Proof.
  revert b. induction fragments as [|f r IH]; intros [q d]; simpl.
  - now rewrite app_nil_r.
  - unfold add_all in IH. rewrite IH. unfold add.
    destruct (truthy f); simpl; [now rewrite <- app_assoc | reflexivity].
Qed.

(** A closed buffer is drained in two steps per fragment. *)
Lemma iterate_closed (q : list string) :
  forall fuel, 2 * List.length q + 2 <= fuel ->
  iterate fuel IterTest (mkBuffer q true) = Some q.
Proof.
  induction q as [|x q IH]; intros fuel Hf.
  - destruct fuel as [|[|fuel]]; simpl in Hf; try lia. reflexivity.
  - destruct fuel as [|[|fuel]]; simpl in Hf; try lia.
    cbn [iterate iter_step queue done negb orb queue_empty].
    rewrite IH by lia. reflexivity.
Qed.

(** An open, empty buffer keeps its reader polling. *)
Lemma iterate_open_empty (fuel : nat) (pc : IterPc) :
  pc <> IterStop -> iterate fuel pc (mkBuffer [] false) = None.
Proof.
  revert pc. induction fuel as [|fuel IH]; intros pc Hpc; [reflexivity|].
  destruct pc; try congruence; cbn [iterate iter_step queue done negb orb];
    rewrite IH by congruence; reflexivity.
Qed.

Lemma filter_truthy_id (l : list string) :
  Forall (fun f => f <> EmptyString) l -> filter truthy l = l.
Proof.
  induction 1 as [|f l Hf _ IH]; simpl; [reflexivity|].
  destruct f; [congruence|]. simpl. now rewrite IH.
Qed.

Lemma filter_truthy_fixed (l : list string) :
  filter truthy l = l -> Forall (fun f => f <> EmptyString) l.
Proof.
  intros H. apply Forall_forall. intros f Hin Hf. subst f.
  rewrite <- H in Hin. apply filter_In in Hin. destruct Hin as [_ Hin].
  discriminate Hin.
Qed.


End BufferFacts.

(* ================================================================== *)
(** ** The lines on the wire *)
(* ================================================================== *)

Module LineFacts.
Import Py PyFacts VoiceServer Observations.

Lemma loads_typed_line (ty content : string) :
  json_loads (json_dumps [("type", ty); ("content", content)] ++ str1 newline)
  = Some [("type", ty); ("content", content)].
Proof. apply loads_dumps_2; reflexivity. Qed.

Lemma loads_text_line (t : string) :
  json_loads (text_line t) = Some [("type", "text"); ("content", t)].
Proof. exact (loads_typed_line "text" t). Qed.

Lemma loads_error_line (m : string) :
  json_loads (error_line m) = Some [("type", "error"); ("content", m)].
Proof. exact (loads_typed_line "error" m). Qed.

Lemma loads_audio_line (a : list byte) :
  json_loads (audio_line a)
  = Some [("type", "audio"); ("content", b64encode a)].
Proof. exact (loads_typed_line "audio" (b64encode a)). Qed.

Lemma loads_done_line : json_loads done_line = Some [("type", "done")].
Proof. vm_compute. reflexivity. Qed.

Lemma is_done_text (t : string) : is_done (text_line t) = false.
Proof. unfold is_done. now rewrite loads_text_line. Qed.

Lemma is_done_error (m : string) : is_done (error_line m) = false.
Proof. unfold is_done. now rewrite loads_error_line. Qed.

Lemma is_done_audio (a : list byte) : is_done (audio_line a) = false.
Proof. unfold is_done. now rewrite loads_audio_line. Qed.

Lemma is_done_done : is_done done_line = true.
Proof. vm_compute. reflexivity. Qed.

Lemma decode_text_line (t : string) : decode_event (text_line t) = Some (EText t).
Proof. unfold decode_event. now rewrite loads_text_line. Qed.

Lemma decode_error_line (m : string) :
  decode_event (error_line m) = Some (EError m).
Proof. unfold decode_event. now rewrite loads_error_line. Qed.

Lemma decode_audio_line (a : list byte) :
  decode_event (audio_line a) = Some (EAudio (b64encode a)).
Proof. unfold decode_event. now rewrite loads_audio_line. Qed.

Lemma decode_done_line : decode_event done_line = Some EDone.
Proof. vm_compute. reflexivity. Qed.

Lemma text_line_inj (a b : string) : text_line a = text_line b -> a = b.
Proof.
  intros H. apply (f_equal decode_event) in H.
  rewrite !decode_text_line in H. congruence.
Qed.

Lemma error_line_inj (a b : string) : error_line a = error_line b -> a = b.
Proof.
  intros H. apply (f_equal decode_event) in H.
  rewrite !decode_error_line in H. congruence.
Qed.

Lemma occurs_app (c : ascii) (a b : string) :
  occurs c (a ++ b)%string = occurs c a || occurs c b.
Proof.
  induction a as [|x a IH]; simpl; [reflexivity|].
  now rewrite IH, orb_assoc.
Qed.

Lemma escape_char_no_newline (c : ascii) :
  occurs newline (escape_char c) = false.
Proof.
  destruct c as [b0 b1 b2 b3 b4 b5 b6 b7];
    destruct b0, b1, b2, b3, b4, b5, b6, b7; reflexivity.
Qed.

Lemma escape_no_newline (s : string) : occurs newline (escape s) = false.
Proof.
  induction s as [|c s IH]; simpl; [reflexivity|].
  now rewrite occurs_app, escape_char_no_newline, IH.
Qed.

Lemma encode_no_newline (s : string) :
  occurs newline (encode_basestring_ascii s) = false.
Proof.
  unfold encode_basestring_ascii. cbn [occurs].
  rewrite occurs_app, escape_no_newline. reflexivity.
Qed.

Lemma dumps_2_no_newline (k1 v1 k2 v2 : string) :
  occurs newline (json_dumps [(k1, v1); (k2, v2)]) = false.
Proof.
  unfold json_dumps, dump_member. cbn [join map fst snd].
  repeat (rewrite ?occurs_app, ?encode_no_newline; cbn [occurs]).
  reflexivity.
Qed.

Lemma typed_line_well_formed (ty content : string) :
  ty = "text" \/ ty = "audio" \/ ty = "error" ->
  well_formed_line
    (json_dumps [("type", ty); ("content", content)] ++ str1 newline)%string.
Proof.
  intros Hty. exists [("type", ty); ("content", content)].
  split; [reflexivity|]. split; [apply dumps_2_no_newline|].
  split; [apply loads_typed_line|]. right. now exists ty, content.
Qed.

Lemma text_line_well_formed (t : string) : well_formed_line (text_line t).
Proof. unfold text_line. apply typed_line_well_formed. auto. Qed.

Lemma error_line_well_formed (m : string) : well_formed_line (error_line m).
Proof. unfold error_line. apply typed_line_well_formed. auto. Qed.

Lemma audio_line_well_formed (a : list byte) :
  well_formed_line (audio_line a).
Proof. unfold audio_line. apply typed_line_well_formed. auto. Qed.

Lemma done_line_well_formed : well_formed_line done_line.
Proof.
  exists [("type", "done")]. split; [reflexivity|].
  split; [vm_compute; reflexivity|]. split; [exact loads_done_line|].
  left. split; reflexivity.
Qed.

Lemma text_events_app (a b : list string) :
  text_events (a ++ b) = text_events a ++ text_events b.
Proof.
  induction a as [|x a IH]; simpl; [reflexivity|].
  destruct (decode_event x) as [[]|]; simpl; now rewrite IH.
Qed.

Lemma error_events_app (a b : list string) :
  error_events (a ++ b) = error_events a ++ error_events b.
Proof.
  induction a as [|x a IH]; simpl; [reflexivity|].
  destruct (decode_event x) as [[]|]; simpl; now rewrite IH.
Qed.

Lemma text_events_text_lines (l : list string) :
  text_events (map text_line l) = l.
Proof.
  induction l as [|x l IH]; [reflexivity|].
  cbn [map text_events]. now rewrite decode_text_line, IH.
Qed.

Lemma error_events_text_lines (l : list string) :
  error_events (map text_line l) = [].
Proof.
  induction l as [|x l IH]; [reflexivity|].
  cbn [map error_events]. now rewrite decode_text_line, IH.
Qed.

End LineFacts.

(* ================================================================== *)
(** ** Executions of the three threads *)
(* ================================================================== *)

Module SystemFacts.
Import Py VoiceServer Observations LineFacts BufferFacts.

Lemma exec_reach (c : Session) (sched : list Tid) :
  forall s tr, Reach c s tr ->
  Reach c (fst (exec sched s)) (tr ++ snd (exec sched s)).
Proof.
  induction sched as [|t sched IH]; intros s tr HR; simpl.
  - now rewrite app_nil_r.
  - pose proof (reach_step c s tr t HR) as H1.
    destruct (step t s) as [s1 a1]. simpl in H1.
    specialize (IH s1 (tr ++ a1) H1).
    destruct (exec sched s1) as [s2 a2]. simpl in *.
    now rewrite app_assoc.
Qed.

Lemma run_reach (c : Session) (sched : list Tid) :
  Reach c (fst (run c sched)) (snd (run c sched)).
Proof.
  unfold run. apply (exec_reach c sched (start c) []). constructor.
Qed.

Lemma exec_app (s1 s2 : list Tid) (s : State) :
  exec (s1 ++ s2) s
  = (fst (exec s2 (fst (exec s1 s))),
     snd (exec s1 s) ++ snd (exec s2 (fst (exec s1 s)))).
Proof.
  revert s. induction s1 as [|t s1 IH]; intros s; simpl.
  - now destruct (exec s2 s).
  - destruct (step t s) as [sa a1]. rewrite IH.
    destruct (exec s1 sa) as [sb a2]. simpl.
    destruct (exec s2 sb) as [sc a3]. simpl. now rewrite app_assoc.
Qed.

(** *** Projections distribute over concatenation *)

Lemma adds_app (a b : list Action) : adds (a ++ b) = adds a ++ adds b.
Proof.
  induction a as [|x a IH]; [reflexivity|].
  destruct x; simpl; now rewrite ?IH.
Qed.

Lemma spoken_app (a b : list Action) :
  spoken (a ++ b) = spoken a ++ spoken b.
Proof.
  induction a as [|x a IH]; [reflexivity|].
  destruct x; simpl; now rewrite ?IH.
Qed.

Lemma yields_app (a b : list Action) :
  yields (a ++ b) = yields a ++ yields b.
Proof.
  induction a as [|x a IH]; [reflexivity|].
  destruct x; simpl; now rewrite ?IH.
Qed.

Lemma tagged_puts_app (a b : list Action) :
  tagged_puts (a ++ b) = tagged_puts a ++ tagged_puts b.
Proof.
  induction a as [|x a IH]; [reflexivity|].
  destruct x; simpl; now rewrite ?IH.
Qed.

Lemma puts_app (a b : list Action) : puts (a ++ b) = puts a ++ puts b.
Proof. unfold puts. now rewrite tagged_puts_app, map_app. Qed.

Lemma puts_of_app (w : Tid) (a b : list Action) :
  puts_of w (a ++ b) = puts_of w a ++ puts_of w b.
Proof. unfold puts_of. now rewrite tagged_puts_app, filter_app, map_app. Qed.

Lemma finished_app (a b : list Action) :
  finished (a ++ b) = finished a || finished b.
Proof. unfold finished. apply existsb_app. Qed.

Create Rewrite HintDb proj.
#[local] Hint Rewrite adds_app spoken_app yields_app tagged_puts_app puts_app
  puts_of_app finished_app app_nil_r : proj.

(** *** What one step of the iterator does to the buffer *)

Lemma iter_step_done (pc : IterPc) (b : TextStreamBuffer) :
  done (snd (fst (iter_step pc b))) = done b.
Proof.
  destruct pc, b as [[|x q] [|]]; reflexivity.
Qed.

Lemma iter_step_queue (pc : IterPc) (b : TextStreamBuffer) :
  match snd (iter_step pc b) with
  | Some x => queue b = x :: queue (snd (fst (iter_step pc b)))
  | None => queue (snd (fst (iter_step pc b))) = queue b
  end.
Proof.
  destruct pc, b as [[|x q] [|]]; reflexivity.
Qed.

Lemma iter_step_stop (pc : IterPc) (b : TextStreamBuffer) :
  fst (fst (iter_step pc b)) = IterStop ->
  pc = IterStop \/ done b = true.
Proof.
  destruct pc, b as [[|x q] [|]]; simpl; intros H; try discriminate H;
    first [left; reflexivity | right; reflexivity].
Qed.

(** *** Invariants *)

#[local] Arguments puts !tr /.
#[local] Arguments puts_of w !tr /.
#[local] Arguments finished !tr /.
#[local] Arguments text_line : simpl never.
#[local] Arguments error_line : simpl never.
#[local] Arguments audio_line : simpl never.
#[local] Arguments done_line : simpl never.
#[local] Arguments tts_error : simpl never.
#[local] Arguments is_done : simpl never.

Ltac step_fish s :=
  unfold stream_fish_tts, fish_pull;
  let it := fresh "it" in
  let Ef := fresh "Ef" in
  destruct (fish_thread s) as [it [|[|?] ?] [|?]|] eqn:Ef;
  try destruct it;
  repeat match goal with
  | |- context [iter_step ?i ?b] =>
      let Ei := fresh "Ei" in
      pose proof (iter_step_done i b);
      pose proof (iter_step_queue i b);
      pose proof (iter_step_stop i b);
      destruct (iter_step i b) as [[? ?] [?|]] eqn:Ei
  end.

Ltac step_claude s :=
  unfold stream_claude;
  let Ec := fresh "Ec" in
  destruct (claude_thread s) as [? [|? ?] [|?]|? ? ? ?|?|] eqn:Ec.

Ltac step_relay s :=
  unfold generate_audio, set_relay;
  let Er := fresh "Er" in
  let Eq := fresh "Eq" in
  destruct (relay s) eqn:Er;
  [ destruct (audio_queue s) as [|? ?] eqn:Eq | .. ].

Ltac use_pcs :=
  repeat match goal with
  | H : claude_thread ?s = _ |- context [claude_thread ?s] => rewrite H
  | H : fish_thread ?s = _ |- context [fish_thread ?s] => rewrite H
  | H : relay ?s = _ |- context [relay ?s] => rewrite H
  | H : audio_queue ?s = _ |- context [audio_queue ?s] => rewrite H
  end.

Ltac tidy :=
  simpl in *; use_pcs;
  repeat (autorewrite with proj in *; simpl in *);
  rewrite ?orb_false_r, ?orb_true_r in *.

Ltac step_cases s t :=
  destruct t; cbn [step];
  [ step_claude s | step_fish s | step_relay s ].

Lemma add_done (t : string) (b : TextStreamBuffer) : done (add t b) = done b.
Proof. unfold add. now destruct (truthy t). Qed.

Lemma claude_inv (c : Session) (s : State) (tr : list Action) :
  Reach c s tr -> ClaudeInv c s tr.
Proof.
  induction 1 as [|s tr t HR IH].
  - constructor; reflexivity.
  - destruct IH as [I1 I2 I3 I4 I5].
    step_cases s t; constructor; tidy; rewrite ?add_done;
      rewrite <- ?app_assoc; simpl; try assumption; try congruence;
      try exact I.
Qed.

(** The token buffer holds, between what the iterator has handed out and
    what is still queued, exactly the truthy fragments passed to [add]. *)
Lemma buffer_inv (c : Session) (s : State) (tr : list Action) :
  Reach c s tr ->
  spoken tr ++ queue (text_buffer s) = filter truthy (adds tr).
Proof.
  induction 1 as [|s tr t HR IH]; [reflexivity|].
  step_cases s t; tidy; rewrite ?filter_app; simpl;
    try assumption.
  1, 2: unfold add; destruct (truthy s0); simpl;
    rewrite ?app_assoc, ?app_nil_r; congruence.
  all: rewrite <- ?app_assoc; simpl; congruence.
Qed.

Lemma fish_inv (c : Session) (s : State) (tr : list Action) :
  Reach c s tr -> FishInv c s tr.
Proof.
  induction 1 as [|s tr t HR IH].
  - constructor; simpl; auto.
  - destruct IH as [I1 I2 I3].
    step_cases s t; constructor; tidy; rewrite ?add_done;
      rewrite <- ?app_assoc; simpl; try assumption; try congruence;
      try exact I.
    all: try (destruct (fish_thread s) as [[] ? ?|]; simpl in *; now auto).
    all: try (match goal with
              | |- match ?i with _ => _ end => destruct i
              end; auto;
              match goal with
              | H : _ = IterStop -> _ |- _ => destruct (H eq_refl)
              end; congruence).
Qed.

(** [audio_queue] holds the lines written and not yet yielded; the read
    loop writes none. *)
Lemma queue_inv (c : Session) (s : State) (tr : list Action) :
  Reach c s tr -> puts tr = yields tr ++ audio_queue s.
Proof.
  induction 1 as [|s tr t HR IH]; [reflexivity|].
  step_cases s t; tidy; rewrite ?IH, <- ?app_assoc; simpl; congruence.
Qed.

Lemma relay_puts (c : Session) (s : State) (tr : list Action) :
  Reach c s tr -> puts_of Relay tr = [].
Proof.
  induction 1 as [|s tr t HR IH]; [reflexivity|].
  step_cases s t; tidy; rewrite ?IH; reflexivity.
Qed.

Lemma relay_inv (c : Session) (s : State) (tr : list Action) :
  Reach c s tr -> RelayInv s tr.
Proof.
  induction 1 as [|s tr t HR IH]; [constructor|].
  unfold RelayInv in *.
  step_cases s t; tidy; try assumption.
  all: try (destruct (relay s); intuition congruence).
  - destruct (is_done s0) eqn:Ed.
    + left. exists (yields tr), s0. auto.
    + apply Forall_app. split; [assumption|]. constructor; [exact Ed|constructor].
  - unfold claude_alive. destruct (claude_thread s); simpl; auto.
  - unfold fish_alive. destruct (fish_thread s); simpl; intuition.
  - destruct (audio_queue s); simpl; intuition.
Qed.


(** *** Which lines can be where *)

Lemma in_puts_of (w : Tid) (l : string) (tr : list Action) :
  In l (puts_of w tr) -> In l (puts tr).
Proof.
  unfold puts_of, puts. rewrite !in_map_iff.
  intros [p [Hp Hin]]. exists p. split; [assumption|].
  apply filter_In in Hin. tauto.
Qed.

Lemma in_puts (l : string) (tr : list Action) :
  In l (puts tr) ->
  In l (puts_of Claude tr) \/ In l (puts_of Fish tr)
  \/ In l (puts_of Relay tr).
Proof.
  unfold puts_of, puts. rewrite !in_map_iff.
  intros [[w l'] [Hp Hin]]. simpl in Hp. subst l'.
  destruct w;
    [ left; exists (Claude, l)
    | right; left; exists (Fish, l)
    | right; right; exists (Relay, l) ];
    (split; [reflexivity|]); apply filter_In; auto.
Qed.

Lemma claude_lines_not_done (c : Session) : Forall not_done (claude_lines c).
Proof.
  unfold claude_lines. apply Forall_app. split.
  - apply Forall_forall. intros l Hl. apply in_map_iff in Hl.
    destruct Hl as [t [<- _]]. apply is_done_text.
  - destruct (model_outcome c); constructor; [apply is_done_error|constructor].
Qed.

Lemma audio_lines_not_done (evs : list FishEvent) :
  Forall not_done (audio_lines evs).
Proof.
  induction evs as [|[|a] evs IH]; simpl; auto.
  constructor; [apply is_done_audio | assumption].
Qed.

Lemma audio_lines_chunks (evs : list FishEvent) :
  audio_lines evs = map audio_line (audio_chunks evs).
Proof.
  induction evs as [|[|a] evs IH]; simpl; auto. now rewrite IH.
Qed.

Lemma final_line_done (o : Outcome) :
  is_done (final_line o) = true -> o = Completed.
Proof.
  destruct o; simpl; [reflexivity|]. now rewrite is_done_error.
Qed.

Lemma not_done_in (l : list string) (x : string) :
  Forall not_done l -> In x l -> is_done x = true -> False.
Proof.
  intros HF Hin Hd. rewrite Forall_forall in HF.
  specialize (HF x Hin). unfold not_done in HF. congruence.
Qed.

(** What [stream_claude] has written is a prefix of its lines. *)
Lemma claude_puts_not_done (c : Session) (s : State) (tr : list Action) :
  Reach c s tr -> Forall not_done (puts_of Claude tr).
Proof.
  intros HR. pose proof (ci_puts _ _ _ (claude_inv c s tr HR)) as H.
  pose proof (claude_lines_not_done c) as HF. rewrite <- H in HF.
  apply Forall_app in HF. tauto.
Qed.

(** A line that ends the read loop is the [done] line; it has been
    written by [stream_fish_tts] as its last action, on normal
    completion. *)
Lemma done_put_by_fish (c : Session) (s : State) (tr : list Action)
  (chunk : string) :
  Reach c s tr -> In chunk (puts tr) -> is_done chunk = true ->
  chunk = done_line /\ tts_outcome c = Completed
  /\ fish_thread s = FishDead.
Proof.
  intros HR Hin Hd.
  destruct (in_puts _ _ Hin) as [Hc | [Hf | Hr]].
  - exfalso. eapply not_done_in; [|exact Hc|exact Hd].
    eapply claude_puts_not_done; eassumption.
  - destruct (fish_inv c s tr HR) as [I1 I2 _].
    unfold fish_lines in I1.
    destruct (fish_thread s) as [it p o|]; simpl in I1.
    + exfalso. rewrite app_assoc in I1. subst o.
      apply app_inj_tail in I1. destruct I1 as [I1 _].
      pose proof (audio_lines_not_done (tts_events c)) as HF.
      rewrite <- I1 in HF. apply Forall_app in HF.
      eapply not_done_in; [exact (proj1 HF) | exact Hf | exact Hd].
    + rewrite app_nil_r in I1. rewrite I1 in Hf.
      apply in_app_or in Hf. destruct Hf as [Hf | [Hf | []]].
      * exfalso. eapply not_done_in; [|exact Hf|exact Hd].
        apply audio_lines_not_done.
      * subst chunk. pose proof (final_line_done _ Hd) as Ho.
        rewrite Ho. auto.
  - rewrite (relay_puts c s tr HR) in Hr. destruct Hr.
Qed.

Lemma in_yields_puts (c : Session) (s : State) (tr : list Action)
  (chunk : string) :
  Reach c s tr -> In chunk (yields tr) -> In chunk (puts tr).
Proof.
  intros HR Hin. rewrite (queue_inv c s tr HR). apply in_or_app. now left.
Qed.

(** Once [stream_fish_tts] has returned, all its lines are written. *)
Lemma fish_dead_puts (c : Session) (s : State) (tr : list Action) :
  Reach c s tr -> fish_thread s = FishDead ->
  puts_of Fish tr = fish_lines c.
Proof.
  intros HR Hd. pose proof (fi_puts _ _ _ (fish_inv c s tr HR)) as H.
  rewrite Hd in H. simpl in H. now rewrite app_nil_r in H.
Qed.

Lemma claude_dead_puts (c : Session) (s : State) (tr : list Action) :
  Reach c s tr -> claude_thread s = ClaudeDead ->
  puts_of Claude tr = claude_lines c.
Proof.
  intros HR Hd. pose proof (ci_puts _ _ _ (claude_inv c s tr HR)) as H.
  rewrite Hd in H. simpl in H. now rewrite app_nil_r in H.
Qed.

(** When the loop has been left, the chunks yielded are chunks that do
    not end it, followed by the [done] line, or both threads have
    returned and everything written has been yielded. *)
Lemma relay_left_cases (c : Session) (s : State) (tr : list Action) :
  Reach c s tr -> relay_left (relay s) = true ->
  (exists pre, yields tr = pre ++ [done_line] /\ Forall not_done pre
               /\ tts_outcome c = Completed /\ fish_thread s = FishDead)
  \/ (Forall not_done (yields tr) /\ claude_thread s = ClaudeDead
      /\ fish_thread s = FishDead /\ audio_queue s = []
      /\ exists msg, tts_outcome c = Raised msg).
Proof.
  intros HR Hl. pose proof (relay_inv c s tr HR) as HI.
  unfold RelayInv in HI.
  assert (HI' :
    (exists pre chunk, yields tr = pre ++ [chunk] /\ is_done chunk = true
                       /\ Forall not_done pre)
    \/ (Forall not_done (yields tr) /\ claude_thread s = ClaudeDead
        /\ fish_thread s = FishDead /\ audio_queue s = []))
    by (destruct (relay s); try discriminate Hl; exact HI).
  clear HI. destruct HI' as [[pre [chunk [Hy [Hd Hp]]]] | [HF [Hc [Hf Hq]]]].
  - left. exists pre.
    assert (Hin : In chunk (puts tr)).
    { apply (in_yields_puts c s tr); [assumption|].
      rewrite Hy. apply in_or_app. right. now left. }
    destruct (done_put_by_fish c s tr chunk HR Hin Hd) as [-> [Ho Hf]].
    auto.
  - right. repeat split; try assumption.
    destruct (tts_outcome c) as [|msg] eqn:Eo; [|now exists msg].
    exfalso.
    pose proof (fish_dead_puts c s tr HR Hf) as Hp.
    assert (Hin : In done_line (puts tr)).
    { apply (in_puts_of Fish). rewrite Hp. unfold fish_lines. rewrite Eo.
      apply in_or_app. right. now left. }
    rewrite (queue_inv c s tr HR), Hq, app_nil_r in Hin.
    eapply not_done_in; [exact HF | exact Hin | exact is_done_done].
Qed.

(** *** Progress *)

Section Progress.
Variable P : State -> Prop.
Variable m : State -> nat.
Variable t : Tid.
Hypothesis P_step : forall s t', P s -> P (fst (step t' s)).
Hypothesis m_other :
  forall s t', P s -> tid_eqb t t' = false -> m (fst (step t' s)) <= m s.
Hypothesis m_own : forall s, P s -> m (fst (step t s)) <= m s - 1.

Lemma exec_keeps (sched : list Tid) :
  forall s, P s -> P (fst (exec sched s)).
Proof.
  induction sched as [|t' sched IH]; intros s Hs; simpl; [assumption|].
  pose proof (P_step s t' Hs) as H1.
  destruct (step t' s) as [s1 a1]. simpl in H1.
  specialize (IH s1 H1). destruct (exec sched s1). assumption.
Qed.

Lemma progress (sched : list Tid) :
  forall s, P s -> m (fst (exec sched s)) <= m s - turns t sched.
Proof.
  unfold turns.
  induction sched as [|t' sched IH]; intros s Hs; simpl; [lia|].
  pose proof (P_step s t' Hs) as H1.
  pose proof (m_other s t' Hs) as H2.
  pose proof (m_own s Hs) as H3.
  destruct (tid_eqb t t') eqn:Et.
  - assert (t' = t) by (destruct t, t'; simpl in Et; congruence). subst t'.
    destruct (step t s) as [s1 a1]. simpl in *.
    specialize (IH s1 H1). destruct (exec sched s1). simpl in *. lia.
  - specialize (H2 eq_refl).
    destruct (step t' s) as [s1 a1]. simpl in *.
    specialize (IH s1 H1). destruct (exec sched s1). simpl in *. lia.
Qed.
End Progress.

Lemma claude_progress (sched : list Tid) (s : State) :
  claude_steps_left (claude_thread (fst (exec sched s)))
  <= claude_steps_left (claude_thread s) - turns Claude sched.
Proof.
  apply (progress (fun _ => True)
           (fun s => claude_steps_left (claude_thread s)) Claude); auto.
  - intros s0 t' _ Ht. destruct t'; try discriminate Ht; simpl.
    + step_fish s0; simpl; use_pcs; auto.
    + step_relay s0; simpl; use_pcs; auto.
  - intros s0 _. simpl. step_claude s0; simpl; use_pcs; simpl;
      try match goal with o : Outcome |- _ => destruct o end; lia.
Qed.

Lemma claude_steps_left_0 (pc : ClaudePc) :
  claude_steps_left pc = 0 -> pc = ClaudeDead.
Proof. destruct pc as [? ? []|? ? ? []| |]; simpl; intros; try lia; auto. Qed.

Lemma step_done_mono (t : Tid) (s : State) :
  done (text_buffer s) = true -> done (text_buffer (fst (step t s))) = true.
Proof.
  intros Hd. step_cases s t; tidy; rewrite ?add_done; congruence.
Qed.

Lemma step_claude_dead (t : Tid) (s : State) :
  claude_thread s = ClaudeDead -> claude_thread (fst (step t s)) = ClaudeDead.
Proof.
  intros Hd. step_cases s t; tidy; congruence.
Qed.

Lemma step_fish_dead (t : Tid) (s : State) :
  fish_thread s = FishDead -> fish_thread (fst (step t s)) = FishDead.
Proof.
  intros Hd. step_cases s t; tidy; congruence.
Qed.

(** Once [done] is set, every step of [stream_fish_tts] brings it closer
    to its return, and no other thread sets it back. *)
Lemma fish_progress (c : Session) (sched : list Tid) (s : State)
  (tr : list Action) :
  Reach c s tr -> done (text_buffer s) = true ->
  fish_steps_left (fst (exec sched s)) <= fish_steps_left s - turns Fish sched.
Proof.
  intros HR Hd.
  apply (progress
           (fun s => (exists tr, Reach c s tr) /\ done (text_buffer s) = true)
           fish_steps_left Fish).
  - intros s0 t' [[tr0 HR0] Hd0]. split.
    + eexists. apply reach_step. eassumption.
    + now apply step_done_mono.
  - intros s0 t' [[tr0 HR0] Hd0] Ht.
    pose proof (ci_done _ _ _ (claude_inv c s0 tr0 HR0)) as Hc.
    rewrite Hd0 in Hc. unfold fish_steps_left.
    destruct t'; try discriminate Ht; simpl.
    + step_claude s0; simpl in *; try discriminate Hc; auto.
    + step_relay s0; simpl; auto.
  - intros s0 [[tr0 HR0] Hd0]. unfold fish_steps_left. simpl.
    unfold stream_fish_tts, fish_pull.
    destruct (text_buffer s0) as [q d] eqn:Eb. simpl in Hd0. subst d.
    destruct (fish_thread s0) as [it [|[|a] p] [|msg]|] eqn:Ef;
      try destruct it; try destruct q as [|x [|y q]]; simpl;
      rewrite ?Eb, ?Ef; simpl; lia.
  - split; [now exists tr | assumption].
Qed.


Lemma fish_steps_left_0 (s : State) :
  fish_steps_left s = 0 -> fish_thread s = FishDead.
Proof.
  unfold fish_steps_left.
  destruct (fish_thread s) as [? ? []|]; intros; try lia; auto.
Qed.

(** With both threads returned, every step of the read loop brings it
    closer to its own return. *)
Lemma relay_progress (sched : list Tid) (s : State) :
  claude_thread s = ClaudeDead -> fish_thread s = FishDead ->
  relay_steps_left (fst (exec sched s))
  <= relay_steps_left s - turns Relay sched.
Proof.
  intros Hc Hf.
  apply (progress
           (fun s => claude_thread s = ClaudeDead /\ fish_thread s = FishDead)
           relay_steps_left Relay); [| | |now split].
  - intros s0 t' [H1 H2]. split;
      [now apply step_claude_dead | now apply step_fish_dead].
  - intros s0 t' [H1 H2] Ht.
    destruct t'; try discriminate Ht; simpl.
    + unfold stream_claude. rewrite H1. auto.
    + unfold stream_fish_tts. rewrite H2. auto.
  - intros s0 [H1 H2]. unfold relay_steps_left. simpl.
    unfold generate_audio, set_relay, claude_alive, fish_alive.
    rewrite H1, H2.
    destruct (relay s0) eqn:Er;
      try destruct (audio_queue s0) as [|x [|y q]] eqn:Eq;
      try destruct (is_done x); simpl; rewrite ?Er, ?Eq; simpl; lia.
Qed.

Lemma relay_steps_left_0 (s : State) :
  relay_steps_left s = 0 -> relay s = RelayStopped.
Proof.
  unfold relay_steps_left.
  destruct (relay s); try destruct (List.length (audio_queue s));
    intros; try lia; auto.
Qed.

(** *** Every line written is well formed *)

Lemma claude_lines_well_formed (c : Session) :
  Forall well_formed_line (claude_lines c).
Proof.
  unfold claude_lines. apply Forall_app. split.
  - apply Forall_forall. intros l Hl. apply in_map_iff in Hl.
    destruct Hl as [t [<- _]]. apply text_line_well_formed.
  - destruct (model_outcome c); constructor; [|constructor].
    apply error_line_well_formed.
Qed.

Lemma fish_lines_well_formed (c : Session) :
  Forall well_formed_line (fish_lines c).
Proof.
  unfold fish_lines. apply Forall_app. split.
  - induction (tts_events c) as [|[|a] evs IH]; simpl; auto.
    constructor; [|assumption]. apply audio_line_well_formed.
  - constructor; [|constructor]. destruct (tts_outcome c); simpl.
    + apply done_line_well_formed.
    + apply error_line_well_formed.
Qed.

Lemma puts_well_formed (c : Session) (s : State) (tr : list Action)
  (chunk : string) :
  Reach c s tr -> In chunk (puts tr) -> well_formed_line chunk.
Proof.
  intros HR Hin.
  destruct (in_puts _ _ Hin) as [Hc | [Hf | Hr]].
  - pose proof (claude_lines_well_formed c) as HF.
    rewrite <- (ci_puts _ _ _ (claude_inv c s tr HR)) in HF.
    apply Forall_app in HF. destruct HF as [HF _].
    rewrite Forall_forall in HF. now apply HF.
  - pose proof (fish_lines_well_formed c) as HF.
    rewrite <- (fi_puts _ _ _ (fish_inv c s tr HR)) in HF.
    apply Forall_app in HF. destruct HF as [HF _].
    rewrite Forall_forall in HF. now apply HF.
  - rewrite (relay_puts c s tr HR) in Hr. destruct Hr.
Qed.

(** *** Bounds for a whole session *)

Lemma exec_claude_dead (sched : list Tid) (s : State) :
  claude_thread s = ClaudeDead ->
  claude_thread (fst (exec sched s)) = ClaudeDead.
Proof.
  apply (exec_keeps (fun s => claude_thread s = ClaudeDead)).
  intros s0 t' H. now apply step_claude_dead.
Qed.

Lemma exec_fish_dead (sched : list Tid) (s : State) :
  fish_thread s = FishDead -> fish_thread (fst (exec sched s)) = FishDead.
Proof.
  apply (exec_keeps (fun s => fish_thread s = FishDead)).
  intros s0 t' H. now apply step_fish_dead.
Qed.

Lemma fish_pending_le (c : Session) (s : State) (tr : list Action) :
  Reach c s tr ->
  match fish_thread s with
  | FishRun _ pending _ => List.length pending <= List.length (tts_events c)
  | FishDead => True
  end.
Proof.
  induction 1 as [|s tr t HR IH]; [simpl; lia|].
  step_cases s t; tidy; auto; lia.
Qed.

Lemma buffer_queue_le (c : Session) (s : State) (tr : list Action) :
  Reach c s tr ->
  List.length (queue (text_buffer s)) <= List.length (model_deltas c).
Proof.
  intros HR.
  pose proof (buffer_inv c s tr HR) as Hb.
  pose proof (ci_adds _ _ _ (claude_inv c s tr HR)) as Ha.
  apply (f_equal (@List.length string)) in Hb, Ha.
  rewrite length_app in Hb, Ha.
  pose proof (filter_length_le truthy (adds tr)). lia.
Qed.

Lemma tagged_length (l : list (Tid * string)) :
  List.length l
  = List.length (filter (fun p => tid_eqb (fst p) Claude) l)
    + List.length (filter (fun p => tid_eqb (fst p) Fish) l)
    + List.length (filter (fun p => tid_eqb (fst p) Relay) l).
Proof.
  induction l as [|[[] x] l IH]; simpl; lia.
Qed.

Lemma audio_lines_length (evs : list FishEvent) :
  List.length (audio_lines evs) <= List.length evs.
Proof. induction evs as [|[|a] evs IH]; simpl; lia. Qed.

Lemma audio_queue_le (c : Session) (s : State) (tr : list Action) :
  Reach c s tr ->
  List.length (audio_queue s)
  <= List.length (model_deltas c) + List.length (tts_events c) + 2.
Proof.
  intros HR.
  pose proof (queue_inv c s tr HR) as Hq.
  pose proof (ci_puts _ _ _ (claude_inv c s tr HR)) as Hc.
  pose proof (fi_puts _ _ _ (fish_inv c s tr HR)) as Hf.
  pose proof (relay_puts c s tr HR) as Hr.
  pose proof (tagged_length (tagged_puts tr)) as Ht.
  apply (f_equal (@List.length string)) in Hq, Hc, Hf, Hr.
  unfold puts, puts_of, claude_lines, fish_lines in *.
  rewrite ?length_app, ?length_map in *. simpl in *.
  pose proof (audio_lines_length (tts_events c)).
  assert (List.length (outcome_lines (model_outcome c)) <= 1)
    by (destruct (model_outcome c); simpl; lia).
  lia.
Qed.

Lemma fish_steps_le (c : Session) (s : State) (tr : list Action) :
  Reach c s tr -> fish_steps_left s <= enough c.
Proof.
  intros HR. pose proof (fish_pending_le c s tr HR) as Hp.
  pose proof (buffer_queue_le c s tr HR) as Hq.
  unfold fish_steps_left, enough.
  destruct (fish_thread s) as [it p [|msg]|]; try lia.
  destruct it; simpl; try lia.
  destruct (List.length (queue (text_buffer s))); lia.
Qed.

Lemma relay_steps_le (c : Session) (s : State) (tr : list Action) :
  Reach c s tr -> relay_steps_left s <= enough c.
Proof.
  intros HR. pose proof (audio_queue_le c s tr HR) as Hq.
  unfold relay_steps_left, enough.
  destruct (relay s); simpl; try lia;
    destruct (List.length (audio_queue s)); lia.
Qed.

(** [stream_claude] returns within [enough c] of its own steps. *)
Lemma claude_returns (c : Session) (sched : list Tid) :
  enough c <= turns Claude sched ->
  claude_thread (fst (run c sched)) = ClaudeDead.
Proof.
  intros Ht. apply claude_steps_left_0.
  pose proof (claude_progress sched (start c)) as H.
  unfold run. simpl in H. unfold enough in Ht.
  destruct (model_outcome c); lia.
Qed.

(** Once [done] is set, [stream_fish_tts] returns within [enough c] of
    its own steps. *)
Lemma fish_returns (c : Session) (s : State) (tr : list Action)
  (sched : list Tid) :
  Reach c s tr -> done (text_buffer s) = true ->
  enough c <= turns Fish sched ->
  fish_thread (fst (exec sched s)) = FishDead.
Proof.
  intros HR Hd Ht. apply fish_steps_left_0.
  pose proof (fish_progress c sched s tr HR Hd).
  pose proof (fish_steps_le c s tr HR). lia.
Qed.

(** Once both threads have returned, the read loop returns within
    [enough c] of its own steps. *)
Lemma relay_returns (c : Session) (s : State) (tr : list Action)
  (sched : list Tid) :
  Reach c s tr ->
  claude_thread s = ClaudeDead -> fish_thread s = FishDead ->
  enough c <= turns Relay sched ->
  relay (fst (exec sched s)) = RelayStopped.
Proof.
  intros HR Hc Hf Ht. apply relay_steps_left_0.
  pose proof (relay_progress sched s Hc Hf).
  pose proof (relay_steps_le c s tr HR). lia.
Qed.

Lemma claude_dead_done (c : Session) (s : State) (tr : list Action) :
  Reach c s tr -> claude_thread s = ClaudeDead ->
  done (text_buffer s) = true.
Proof.
  intros HR Hd. rewrite (ci_done _ _ _ (claude_inv c s tr HR)), Hd.
  reflexivity.
Qed.

(** Under a schedule that gives [stream_claude], then [stream_fish_tts],
    then the read loop enough turns, everything returns. *)
Lemma session_terminates (c : Session) (s1 s2 s3 : list Tid) :
  enough c <= turns Claude s1 ->
  enough c <= turns Fish s2 ->
  enough c <= turns Relay s3 ->
  let s := fst (run c (s1 ++ s2 ++ s3)) in
  claude_thread s = ClaudeDead /\ fish_thread s = FishDead
  /\ relay s = RelayStopped.
Proof.
  intros H1 H2 H3. unfold run. rewrite !exec_app. simpl.
  pose proof (run_reach c s1) as R1. unfold run in R1.
  pose proof (claude_returns c s1 H1) as C1. unfold run in C1.
  set (sa := fst (exec s1 (start c))) in *.
  pose proof (exec_reach c s2 _ _ R1) as R2.
  pose proof (fish_returns c sa _ s2 R1 (claude_dead_done c sa _ R1 C1) H2)
    as F2.
  pose proof (exec_claude_dead s2 sa C1) as C2.
  set (sb := fst (exec s2 sa)) in *.
  pose proof (relay_returns c sb _ s3 R2 C2 F2 H3) as R3.
  repeat split.
  - now apply exec_claude_dead.
  - now apply exec_fish_dead.
  - exact R3.
Qed.

(** *** After the loop *)

Lemma left_stays (sched : list Tid) (s : State) :
  relay_left (relay s) = true ->
  relay_left (relay (fst (exec sched s))) = true
  /\ yields (snd (exec sched s)) = [].
Proof.
  revert s. induction sched as [|t sched IH]; intros s Hl; simpl; [auto|].
  assert (H1 : relay_left (relay (fst (step t s))) = true
               /\ yields (snd (step t s)) = []).
  { step_cases s t; tidy; try discriminate Hl; auto. }
  destruct (step t s) as [s1 a1]. simpl in H1. destruct H1 as [H1 H2].
  specialize (IH s1 H1). destruct (exec sched s1) as [s2 a2]. simpl in *.
  rewrite yields_app, H2. tauto.
Qed.

(** A chunk that ends the loop is the last one yielded. *)
Lemma done_is_last (c : Session) (s : State) (tr : list Action)
  (pre post : list string) (chunk : string) :
  Reach c s tr -> yields tr = pre ++ chunk :: post ->
  is_done chunk = true ->
  post = [] /\ relay_left (relay s) = true.
Proof.
  intros HR Hy Hd. pose proof (relay_inv c s tr HR) as HI.
  unfold RelayInv in HI.
  assert (Hin : In chunk (yields tr))
    by (rewrite Hy; apply in_or_app; right; now left).
  assert (Hno : Forall not_done (yields tr) -> False)
    by (intros HF; eapply not_done_in; eauto).
  destruct (relay s); simpl; try tauto.
  all: destruct HI as [[pre' [ch' [Hy' [Hd' Hp']]]] | [HF _]]; try tauto.
  all: split; [|reflexivity].
  all: rewrite Hy in Hy'.
  all: destruct post as [|y post]; [reflexivity|exfalso].
  all: assert (Hpre : In chunk pre').
  all: try (change (pre ++ chunk :: y :: post)
              with (pre ++ [chunk] ++ (y :: post)) in Hy';
            assert (Hne : y :: post <> []) by discriminate;
            destruct (exists_last Hne) as [mid [z Hz]]; rewrite Hz in Hy';
            rewrite !app_assoc in Hy'; apply app_inj_tail in Hy';
            destruct Hy' as [Hy' _]; rewrite <- Hy';
            apply in_or_app; left; apply in_or_app; right; now left).
  all: eapply not_done_in; eauto.
Qed.

(** *** The text events and the token buffer *)

(** The [text] events written so far and the deltas still to be written
    add up to the deltas of the model, in order. *)
Lemma text_events_inv (c : Session) (s : State) (tr : list Action) :
  Reach c s tr ->
  text_events (puts tr) ++ claude_pending_text (claude_thread s)
  = model_deltas c.
Proof.
  induction 1 as [|s tr t HR IH]; [reflexivity|].
  step_cases s t; tidy; rewrite ?text_events_app; cbn [text_events];
    rewrite ?decode_text_line, ?decode_error_line, ?decode_audio_line,
      ?decode_done_line, <- ?app_assoc, ?app_nil_r; simpl; assumption.
Qed.

Lemma text_events_lag (c : Session) (s : State) (tr : list Action) :
  Reach c s tr ->
  text_events (puts tr) = adds tr
  \/ exists last, adds tr = text_events (puts tr) ++ [last].
Proof.
  intros HR. pose proof (text_events_inv c s tr HR) as H1.
  pose proof (ci_adds _ _ _ (claude_inv c s tr HR)) as H2.
  destruct (claude_thread s) as [ft p o|ft ch p o|m|]; simpl in *.
  - left. rewrite <- H2 in H1. now apply app_inv_tail in H1.
  - right. exists ch. rewrite <- H2 in H1.
    change (ch :: p) with ([ch] ++ p) in H1. rewrite app_assoc in H1.
    apply app_inv_tail in H1. now symmetry.
  - left. rewrite app_nil_r in *. congruence.
  - left. rewrite app_nil_r in *. congruence.
Qed.

(** *** Interleaving of the two producers *)

Lemma interleave_tagged (T : list (Tid * string)) :
  filter (fun p => tid_eqb (fst p) Relay) T = [] ->
  Interleave (map snd (filter (fun p => tid_eqb (fst p) Claude) T))
             (map snd (filter (fun p => tid_eqb (fst p) Fish) T))
             (map snd T).
Proof.
  induction T as [|[w l] T IH]; simpl; intros H; [constructor|].
  destruct w; simpl in *; try discriminate H;
    constructor; now apply IH.
Qed.

Lemma interleave_forall {A : Type} (P : A -> Prop) (l1 l2 l : list A) :
  Interleave l1 l2 l -> Forall P l1 -> Forall P l2 -> Forall P l.
Proof.
  induction 1; intros H1 H2; auto.
  - inversion H1; subst. constructor; auto.
  - inversion H2; subst. constructor; auto.
Qed.

Lemma ends_at_first_done (X pre rest : list string) (d d' : string) :
  X ++ [d] = pre ++ d' :: rest ->
  Forall not_done X -> is_done d' = true ->
  rest = [] /\ pre = X.
Proof.
  intros H HX Hd.
  destruct rest as [|y rest].
  - apply app_inj_tail in H. split; [reflexivity | symmetry; tauto].
  - exfalso. assert (Hne : y :: rest <> []) by discriminate.
    destruct (exists_last Hne) as [mid [z Hz]]. rewrite Hz in H.
    change (pre ++ d' :: mid ++ [z]) with (pre ++ (d' :: mid) ++ [z]) in H.
    rewrite app_assoc in H. apply app_inj_tail in H. destruct H as [H _].
    eapply not_done_in; [exact HX| |exact Hd].
    rewrite H. apply in_or_app. right. now left.
Qed.

(** When both streams complete, [done] is the last line written. *)
Lemma done_put_last (c : Session) (s : State) (tr : list Action) :
  Reach c s tr ->
  model_outcome c = Completed -> tts_outcome c = Completed ->
  fish_thread s = FishDead ->
  exists T, tagged_puts tr = T ++ [(Fish, done_line)].
Proof.
  intros HR Hm Ht. induction HR as [|s tr t HR IH]; [discriminate|].
  pose proof (claude_inv c s tr HR) as [_ _ C3 _ C5].
  pose proof (fish_inv c s tr HR) as [_ F2 F3].
  step_cases s t; tidy; intros Hd; try discriminate Hd;
    try (rewrite Hd in *; specialize (IH eq_refl); specialize (F3 Ht));
    try congruence;
    try (destruct IH as [T IH]; exists T; now rewrite IH).
  all: try (eexists; reflexivity).
  all: try (rewrite app_nil_r; now apply IH).
  all: now apply IH.
Qed.

(** The outbound stream of a run in which both streams complete. *)
Lemma completed_stream (c : Session) (s : State) (tr : list Action) :
  Reach c s tr ->
  model_outcome c = Completed -> tts_outcome c = Completed ->
  relay_left (relay s) = true ->
  exists X,
    yields tr = X ++ [done_line]
    /\ Interleave (map text_line (model_deltas c))
         (audio_lines (tts_events c)) X
    /\ audio_queue s = [].
Proof.
  intros HR Hm Ht Hl.
  destruct (relay_left_cases _ _ _ HR Hl)
    as [[pre [Hy [Hp [_ Hf]]]] | [_ [_ [_ [_ [msg Hmsg]]]]]];
    [|congruence].
  destruct (done_put_last _ _ _ HR Hm Ht Hf) as [T HT].
  pose proof (claude_inv c s tr HR) as [_ _ C3 _ C5].
  pose proof (fish_inv c s tr HR) as [_ _ F3].
  rewrite Hf in F3. specialize (F3 Ht). rewrite F3 in C3.
  assert (Hc : claude_thread s = ClaudeDead).
  { destruct (claude_thread s); try discriminate C3; [congruence|reflexivity]. }
  pose proof (claude_dead_puts _ _ _ HR Hc) as Pc.
  pose proof (fish_dead_puts _ _ _ HR Hf) as Pf.
  pose proof (relay_puts _ _ _ HR) as Pr.
  pose proof (queue_inv _ _ _ HR) as Pq.
  unfold puts_of, claude_lines in Pc. rewrite HT, filter_app, map_app, Hm in Pc.
  simpl in Pc. rewrite !app_nil_r in Pc.
  unfold puts_of, fish_lines in Pf. rewrite HT, filter_app, map_app, Ht in Pf.
  simpl in Pf.
  unfold puts_of in Pr. rewrite HT, filter_app, map_app in Pr.
  simpl in Pr. rewrite app_nil_r in Pr.
  unfold puts in Pq. rewrite HT, map_app in Pq. simpl in Pq.
  apply app_inj_tail in Pf. destruct Pf as [Pf _].
  assert (Hr : filter (fun p => tid_eqb (fst p) Relay) T = [])
    by (destruct (filter (fun p => tid_eqb (fst p) Relay) T);
        [reflexivity | discriminate Pr]).
  pose proof (interleave_tagged T Hr) as HI. rewrite Pc, Pf in HI.
  assert (HX : Forall not_done (map snd T)).
  { eapply interleave_forall; [exact HI| |apply audio_lines_not_done].
    apply Forall_forall. intros l Hin. apply in_map_iff in Hin.
    destruct Hin as [x [<- _]]. apply is_done_text. }
  rewrite Hy, <- app_assoc in Pq. simpl in Pq.
  destruct (ends_at_first_done _ _ _ _ _ Pq HX is_done_done) as [Hq Hpre].
  exists (map snd T). subst pre. auto.
Qed.

(** *** Who wrote an error line *)






End SystemFacts.

(* ================================================================== *)
(** ** Concrete runs *)
(* ================================================================== *)

Module Examples.
Import Py VoiceServer Observations BufferFacts.
Local Open Scope string_scope.

Example text_line_hello :
  let q := str1 dquote in
  text_line "Hello"
  = "{" ++ q ++ "type" ++ q ++ ": " ++ q ++ "text" ++ q ++ ", "
    ++ q ++ "content" ++ q ++ ": " ++ q ++ "Hello" ++ q ++ "}"
    ++ str1 newline.
Proof. reflexivity. Qed.

Example done_line_text :
  let q := str1 dquote in
  done_line = "{" ++ q ++ "type" ++ q ++ ": " ++ q ++ "done" ++ q ++ "}"
              ++ str1 newline.
Proof. reflexivity. Qed.

(** Quote, backslash, newline and a character above [~] are escaped. *)
Example escape_specials :
  escape (String dquote (String bslash (String newline (String "233" "x"))))
  = String bslash (String dquote (String bslash (String bslash
      (String bslash (String "n" (String bslash "u00e9x")))))).
Proof. reflexivity. Qed.

Example b64encode_samples :
  b64encode [x01; x02]%byte = "AQI="
  /\ b64encode [x4d; x61; x6e]%byte = "TWFu"
  /\ b64encode [x4d]%byte = "TQ=="
  /\ b64encode [xff; xfe; xfd; xfc]%byte = "//79/A=="
  /\ b64encode [] = EmptyString.
Proof. repeat split; reflexivity. Qed.

Example list_buffer_sample :
  list_buffer 8 (finish (add_all ["a"; EmptyString; "b"]%list new_buffer))
  = Some ["a"; "b"]%list.
Proof. reflexivity. Qed.

(** A reader of a buffer that is never closed polls for ever. *)
Example open_buffer_keeps_polling (fuel : nat) :
  list_buffer fuel new_buffer = None.
Proof. apply iterate_open_empty. discriminate. Qed.

(** A complete run: text, text, audio, done. *)
Example complete_run :
  run (mkSession ["Hello"; " world"]%list Completed
         [FishAudio [x01; x02]%byte]%list Completed)
      (repeat Claude 5 ++ repeat Fish 7 ++ repeat Relay 6)%list
  = (mkState (mkBuffer [] true) [] ClaudeDead FishDead RelayStopped,
     [Add "Hello"; Put Claude (text_line "Hello");
      Add " world"; Put Claude (text_line " world"); Finish;
      Put Fish (audio_line [x01; x02]%byte);
      Speak "Hello"; Speak " world"; Put Fish done_line;
      Yield (text_line "Hello"); Yield (text_line " world");
      Yield (audio_line [x01; x02]%byte); Yield done_line]%list).
Proof. vm_compute. reflexivity. Qed.

(** The iterator can return with a fragment still queued: its [get] times
    out on the empty queue, the producer then adds a fragment and
    closes, and the handler sees [done] set and breaks. *)
Example iterator_may_stop_early :
  fish_thread
    (fst (run (mkSession ["x"]%list Completed [] Completed)
            [Fish; Fish; Claude; Claude; Claude; Fish; Fish]%list))
  = FishDead
  /\ queue (text_buffer
             (fst (run (mkSession ["x"]%list Completed [] Completed)
                     [Fish; Fish; Claude; Claude; Claude; Fish; Fish]%list)))
     = ["x"]%list
  /\ spoken (snd (run (mkSession ["x"]%list Completed [] Completed)
                   [Fish; Fish; Claude; Claude; Claude; Fish; Fish]%list))
     = []%list.
Proof. vm_compute. auto. Qed.

End Examples.

(* ================================================================== *)
(** ** The properties of the relay *)
(* ================================================================== *)

Module Properties.
Import Py PyFacts VoiceServer Observations BufferFacts LineFacts SystemFacts.

#[local] Arguments text_line : simpl never.
#[local] Arguments error_line : simpl never.
#[local] Arguments audio_line : simpl never.
#[local] Arguments done_line : simpl never.
#[local] Arguments is_done : simpl never.
#[local] Arguments decode_event : simpl never.

(** *** Token buffer *)

(** C1, as stated, fails: an empty fragment pushed before [finish()] is
    not among the fragments the iterator yields. *)
Lemma c1_empty_fragment_is_dropped :
  list_buffer 4 (finish (add_all [EmptyString] new_buffer)) = Some []
  /\ ~ (exists fuel,
          list_buffer fuel (finish (add_all [EmptyString] new_buffer))
          = Some [EmptyString]).
Proof.
  split; [reflexivity|].
  intros [fuel H]. destruct fuel as [|[|fuel]]; discriminate H.
Qed.

(** C1, amended: for every sequence of fragments pushed with [add] and
    followed by one [finish()], iterating the buffer afterwards yields
    exactly the non-empty fragments among them, in push order, and then
    returns; when no fragment is empty these are all the fragments; and
    on a closed empty buffer the first step of the iterator is its
    return, with nothing yielded. *)
Theorem token_buffer_yields_pushed (fragments : list string) (fuel : nat) :
  2 * List.length fragments + 2 <= fuel ->
  list_buffer fuel (finish (add_all fragments new_buffer))
  = Some (filter truthy fragments)
  /\ (Forall (fun f => f <> EmptyString) fragments ->
      list_buffer fuel (finish (add_all fragments new_buffer))
      = Some fragments)
  /\ iter_step IterTest (finish new_buffer)
     = (IterStop, finish new_buffer, None).
Proof.
  intros Hf.
  assert (H : list_buffer fuel (finish (add_all fragments new_buffer))
              = Some (filter truthy fragments)).
  { rewrite add_all_queue. unfold finish, list_buffer. simpl.
    apply iterate_closed.
    pose proof (filter_length_le truthy fragments). lia. }
  split; [exact H|]. split; [|reflexivity].
  intros Hne. rewrite H. now rewrite filter_truthy_id.
Qed.

(** Three fragments, the middle one empty, read back after [finish()]. *)
Lemma token_buffer_yields_pushed_witness :
  list_buffer 8 (finish (add_all ["a"; EmptyString; "b"] new_buffer))
  = Some ["a"; "b"].
Proof.
  apply (token_buffer_yields_pushed ["a"; EmptyString; "b"] 8). simpl. lia.
Defined.



(** *** Wire format *)

(** C6, as stated, fails on the [done] line: it is yielded, and the
    object it decodes to has no [content] member. *)
Lemma c6_done_line_has_no_content :
  In done_line
    (yields (snd (run (mkSession [] Completed [] Completed)
                    [Claude; Fish; Fish; Relay])))
  /\ json_loads done_line = Some [("type", "done")]
  /\ dict_get "content" [("type", "done")] = None.
Proof. vm_compute. auto. Qed.

(** C6, amended: every chunk yielded on the outbound stream is one line,
    a JSON object followed by a newline and with no newline inside, whose
    [type] is [text], [audio] or [error] with a string [content], or
    which is the [done] object, of the single member [type]. *)
Theorem outbound_lines_well_formed (c : Session) (sched : list Tid)
  (chunk : string) :
  In chunk (yields (snd (run c sched))) -> well_formed_line chunk.
Proof.
  intros Hin. pose proof (run_reach c sched) as HR.
  eapply puts_well_formed; [exact HR|].
  eapply in_yields_puts; eassumption.
Qed.

(** The first chunk yielded in a run with the delta [Hello]. *)
Lemma outbound_lines_well_formed_witness :
  well_formed_line (text_line "Hello").
Proof.
  apply (outbound_lines_well_formed
           (mkSession ["Hello"] Completed [] Completed)
           [Claude; Claude; Relay]).
  vm_compute. left. reflexivity.
Defined.

(** *** After [done] *)

(** C9: a chunk that the read loop recognises as [done] is the [done]
    line and the last chunk it ever yields: the loop has been left, and
    whatever is still in [audio_queue] or is written to it later is not
    yielded. *)
Theorem nothing_yielded_after_done (c : Session) (sched : list Tid)
  (pre post : list string) (chunk : string) :
  yields (snd (run c sched)) = pre ++ chunk :: post ->
  is_done chunk = true ->
  chunk = done_line /\ post = []
  /\ relay_left (relay (fst (run c sched))) = true
  /\ forall more, yields (snd (run c (sched ++ more))) = pre ++ [done_line].
Proof.
  intros Hy Hd. pose proof (run_reach c sched) as HR.
  destruct (done_is_last _ _ _ _ _ _ HR Hy Hd) as [Hp Hl].
  assert (Hin : In chunk (puts (snd (run c sched)))).
  { eapply in_yields_puts; [exact HR|]. rewrite Hy.
    apply in_or_app. right. now left. }
  destruct (done_put_by_fish _ _ _ _ HR Hin Hd) as [Hc _].
  subst chunk post. repeat split; try assumption.
  intros more. unfold run in *. rewrite exec_app. simpl.
  rewrite yields_app, Hy. destruct (left_stays more _ Hl) as [_ H0].
  rewrite H0. now rewrite app_nil_r.
Qed.

(** A late [error] line: [stream_claude] fails, the session completes and
    [done] is yielded before the error line is written; the error line
    stays in [audio_queue] for good. *)
Lemma nothing_yielded_after_done_witness :
  audio_queue
    (fst (run (mkSession [] (Raised "overloaded") [] Completed)
            [Claude; Fish; Fish; Relay; Claude; Relay; Relay]))
  = [error_line "overloaded"]
  /\ relay (fst (run (mkSession [] (Raised "overloaded") [] Completed)
                  [Claude; Fish; Fish; Relay; Claude; Relay; Relay]))
     = RelayStopped
  /\ forall more,
       yields (snd (run (mkSession [] (Raised "overloaded") [] Completed)
                      ([Claude; Fish; Fish; Relay; Claude; Relay; Relay]
                       ++ more)))
       = [done_line].
Proof.
  split; [vm_compute; reflexivity|].
  split; [vm_compute; reflexivity|].
  apply (nothing_yielded_after_done
           (mkSession [] (Raised "overloaded") [] Completed)
           [Claude; Fish; Fish; Relay; Claude; Relay; Relay]
           [] [] done_line).
  - vm_compute. reflexivity.
  - vm_compute. reflexivity.
Defined.

(** *** Termination and the [done] event *)

(** C3, as stated, fails: when the speech session raises, the run below
    is complete (both threads and the read loop have returned, the queue
    is empty) and the only chunk yielded is the TTS error line; no
    schedule of that session ever yields the [done] line. *)
Lemma c3_no_done_when_tts_fails :
  relay (fst (run (mkSession [] Completed [] (Raised "bad credentials"))
                [Claude; Fish; Relay; Relay; Relay; Relay; Relay; Relay;
                 Relay]))
  = RelayStopped
  /\ yields (snd (run (mkSession [] Completed [] (Raised "bad credentials"))
                    [Claude; Fish; Relay; Relay; Relay; Relay; Relay; Relay;
                     Relay]))
     = [error_line "TTS Error: bad credentials"]
  /\ ~ (exists sched,
          In done_line
            (yields (snd (run (mkSession [] Completed []
                                 (Raised "bad credentials")) sched)))).
Proof.
  split; [vm_compute; reflexivity|]. split; [vm_compute; reflexivity|].
  intros [sched Hin].
  pose proof (run_reach (mkSession [] Completed [] (Raised "bad credentials"))
                sched) as HR.
  pose proof (in_yields_puts _ _ _ _ HR Hin) as Hp.
  destruct (done_put_by_fish _ _ _ _ HR Hp is_done_done) as [_ [Ho _]].
  discriminate Ho.
Qed.

(** C3, amended: in every execution in which the speech session
    completes normally (whether or not [stream_claude] fails), the read
    loop, once left, has yielded the [done] line as its last chunk; when
    the speech session raises, no line recognised as [done] is ever
    written or yielded, and the loop is left only when both threads
    have returned and everything written, the TTS error line included,
    has been yielded; and in both cases, under a schedule that gives
    [stream_claude], then [stream_fish_tts], then the read loop enough
    turns, both threads and the read loop return. *)
Theorem done_iff_speech_completes (c : Session) (sched : list Tid) :
  (tts_outcome c = Completed ->
   relay_left (relay (fst (run c sched))) = true ->
   exists pre, yields (snd (run c sched)) = pre ++ [done_line]
               /\ Forall not_done pre)
  /\ ((exists msg, tts_outcome c = Raised msg) ->
      Forall not_done (puts (snd (run c sched)))
      /\ Forall not_done (yields (snd (run c sched))))
  /\ (forall msg,
        tts_outcome c = Raised msg ->
        relay_left (relay (fst (run c sched))) = true ->
        claude_thread (fst (run c sched)) = ClaudeDead
        /\ fish_thread (fst (run c sched)) = FishDead
        /\ yields (snd (run c sched)) = puts (snd (run c sched))
        /\ In (error_line (tts_error msg)) (yields (snd (run c sched))))
  /\ (forall s1 s2 s3,
        sched = s1 ++ s2 ++ s3 ->
        enough c <= turns Claude s1 ->
        enough c <= turns Fish s2 ->
        enough c <= turns Relay s3 ->
        claude_thread (fst (run c sched)) = ClaudeDead
        /\ fish_thread (fst (run c sched)) = FishDead
        /\ relay (fst (run c sched)) = RelayStopped).
Proof.
  pose proof (run_reach c sched) as HR.
  split; [|split; [|split]].
  - intros Ho Hl.
    destruct (relay_left_cases _ _ _ HR Hl)
      as [[pre [Hy [Hp _]]] | [_ [_ [_ [_ [msg Hm]]]]]].
    + now exists pre.
    + congruence.
  - intros [msg Hm].
    assert (HP : Forall not_done (puts (snd (run c sched)))).
    { apply Forall_forall. intros chunk Hin. unfold not_done.
      destruct (is_done chunk) eqn:Hd; [|reflexivity].
      destruct (done_put_by_fish _ _ _ _ HR Hin Hd) as [_ [Ho _]].
      congruence. }
    split; [exact HP|].
    rewrite (queue_inv _ _ _ HR) in HP. apply Forall_app in HP. tauto.
  - intros msg Hm Hl.
    destruct (relay_left_cases _ _ _ HR Hl)
      as [[pre [_ [_ [Ho _]]]] | [_ [Hc [Hf [Hq _]]]]]; [congruence|].
    pose proof (queue_inv _ _ _ HR) as Pq. rewrite Hq, app_nil_r in Pq.
    repeat split; auto. rewrite <- Pq. apply (in_puts_of Fish).
    rewrite (fish_dead_puts _ _ _ HR Hf). unfold fish_lines. rewrite Hm.
    apply in_or_app. right. now left.
  - intros s1 s2 s3 -> H1 H2 H3.
    exact (session_terminates c s1 s2 s3 H1 H2 H3).
Qed.

(** [stream_claude] fails after one delta, the session completes. *)
Lemma done_iff_speech_completes_witness :
  exists pre,
    yields (snd (run (mkSession ["Hi"] (Raised "overloaded") [] Completed)
                   [Claude; Claude; Claude; Claude; Fish; Fish; Fish; Fish;
                    Relay; Relay; Relay]))
    = pre ++ [done_line]
    /\ Forall not_done pre.
Proof.
  apply (proj1 (done_iff_speech_completes
                  (mkSession ["Hi"] (Raised "overloaded") [] Completed)
                  [Claude; Claude; Claude; Claude; Fish; Fish; Fish; Fish;
                   Relay; Relay; Relay])).
  - reflexivity.
  - vm_compute. reflexivity.
Defined.

(** *** Failure of a producer *)

(** C4: when the language-model stream raises, [stream_claude], having
    been given enough turns, has returned; it has called [finish()], so
    [done] is set; after the [text] lines of the deltas received it has
    written exactly one [error] line, whose content is the message of the
    exception; and [stream_fish_tts], given enough turns afterwards,
    returns too. *)
Theorem text_producer_failure (c : Session) (msg : string)
  (s1 s2 : list Tid) :
  model_outcome c = Raised msg ->
  enough c <= turns Claude s1 ->
  claude_thread (fst (run c s1)) = ClaudeDead
  /\ puts_of Claude (snd (run c s1))
     = map text_line (model_deltas c) ++ [error_line msg]
  /\ error_events (puts_of Claude (snd (run c s1))) = [msg]
  /\ finished (snd (run c s1)) = true
  /\ done (text_buffer (fst (run c s1))) = true
  /\ (enough c <= turns Fish s2 ->
      fish_thread (fst (run c (s1 ++ s2))) = FishDead).
Proof.
  intros Ho Ht. pose proof (run_reach c s1) as HR.
  pose proof (claude_returns c s1 Ht) as Hd.
  pose proof (claude_dead_puts _ _ _ HR Hd) as Hp.
  pose proof (claude_dead_done _ _ _ HR Hd) as Hdone.
  unfold claude_lines in Hp. rewrite Ho in Hp. simpl in Hp.
  repeat split; try assumption.
  - rewrite Hp, error_events_app, error_events_text_lines. simpl.
    now rewrite decode_error_line.
  - now rewrite (ci_fin _ _ _ (claude_inv _ _ _ HR)).
  - intros Hf. unfold run. rewrite exec_app. simpl.
    eapply fish_returns; eassumption.
Qed.

(** One delta, then the model stream raises. *)
Lemma text_producer_failure_witness :
  puts_of Claude
    (snd (run (mkSession ["Hi"] (Raised "overloaded") [] Completed)
            (repeat Claude 13)))
  = map text_line ["Hi"] ++ [error_line "overloaded"].
Proof.
  apply (text_producer_failure
           (mkSession ["Hi"] (Raised "overloaded") [] Completed)
           "overloaded" (repeat Claude 13) []).
  - reflexivity.
  - vm_compute. lia.
Defined.



(** *** The read loop *)

(** C7: a [get] on an empty queue times out into the [queue.Empty]
    handler and yields nothing; the handler ends the loop exactly when
    both threads have returned and the queue is empty, and otherwise goes
    back to polling; so whenever the loop has been left without a [done]
    chunk, both threads have returned and the queue is empty; and once
    both threads have returned, the read loop returns within [enough c]
    of its own turns, whatever the schedule. *)
Theorem read_loop_polls_until_finished (c : Session) (sched : list Tid) :
  (relay (fst (run c sched)) = RelayGet ->
   audio_queue (fst (run c sched)) = [] ->
   relay (fst (step Relay (fst (run c sched)))) = RelayClaudeAlive
   /\ snd (step Relay (fst (run c sched))) = [])
  /\ (relay (fst (run c sched)) = RelayClaudeAlive ->
      (relay (on_empty (fst (run c sched))) = RelayJoinClaude <->
       claude_thread (fst (run c sched)) = ClaudeDead
       /\ fish_thread (fst (run c sched)) = FishDead
       /\ audio_queue (fst (run c sched)) = [])
      /\ (relay (on_empty (fst (run c sched))) = RelayJoinClaude
          \/ relay (on_empty (fst (run c sched))) = RelayGet))
  /\ (relay_left (relay (fst (run c sched))) = true ->
      (exists pre, yields (snd (run c sched)) = pre ++ [done_line])
      \/ (claude_thread (fst (run c sched)) = ClaudeDead
          /\ fish_thread (fst (run c sched)) = FishDead
          /\ audio_queue (fst (run c sched)) = []))
  /\ (claude_thread (fst (run c sched)) = ClaudeDead ->
      fish_thread (fst (run c sched)) = FishDead ->
      forall more,
        enough c <= turns Relay more ->
        relay (fst (run c (sched ++ more))) = RelayStopped).
Proof.
  pose proof (run_reach c sched) as HR.
  set (s := fst (run c sched)) in *.
  split; [|split; [|split]].
  - intros Hr Hq. simpl. unfold generate_audio. rewrite Hr, Hq. auto.
  - intros Hr. unfold on_empty, generate_audio, set_relay.
    unfold claude_alive, fish_alive. simpl. rewrite Hr. simpl.
    destruct (claude_thread s); simpl;
      try (split; [split; [discriminate | intros [H _]; discriminate H]
                  | right; reflexivity]).
    destruct (fish_thread s); simpl;
      try (split; [split; [discriminate | intros [_ [H _]]; discriminate H]
                  | right; reflexivity]).
    destruct (audio_queue s); simpl.
    + split; [split; auto | left; reflexivity].
    + split; [split; [discriminate | intros [_ [_ H]]; discriminate H]
             | right; reflexivity].
  - intros Hl.
    destruct (relay_left_cases _ _ _ HR Hl)
      as [[pre [Hy _]] | [_ [Hc [Hf [Hq _]]]]].
    + left. now exists pre.
    + right. auto.
  - intros Hc Hf more Ht. unfold run. rewrite exec_app. simpl.
    eapply relay_returns; eassumption.
Qed.

(** Both threads have returned; fourteen turns of the read loop. *)
Lemma read_loop_polls_until_finished_witness :
  relay (fst (run (mkSession ["Hi"] Completed [] (Raised "bad credentials"))
                ([Claude; Claude; Claude; Fish] ++ repeat Relay 14)))
  = RelayStopped.
Proof.
  apply (proj2 (proj2 (proj2
           (read_loop_polls_until_finished
              (mkSession ["Hi"] Completed [] (Raised "bad credentials"))
              [Claude; Claude; Claude; Fish])))).
  - reflexivity.
  - reflexivity.
  - vm_compute. lia.
Defined.

(** *** Fragment order *)

(** C2, as stated, fails: for the single empty delta, in a complete run,
    the read loop has yielded the [text] event of the empty fragment
    while the token buffer has neither handed out nor kept any
    fragment. *)
Lemma c2_empty_delta_not_buffered :
  text_events
    (yields (snd (run (mkSession [EmptyString] Completed [] Completed)
                    [Claude; Claude; Claude; Fish; Fish; Relay; Relay])))
  = [EmptyString]
  /\ spoken (snd (run (mkSession [EmptyString] Completed [] Completed)
                   [Claude; Claude; Claude; Fish; Fish; Relay; Relay]))
     ++ queue (text_buffer
                 (fst (run (mkSession [EmptyString] Completed [] Completed)
                         [Claude; Claude; Claude; Fish; Fish; Relay; Relay])))
     = []
  /\ relay_left
       (relay (fst (run (mkSession [EmptyString] Completed [] Completed)
                      [Claude; Claude; Claude; Fish; Fish; Relay; Relay])))
     = true.
Proof. vm_compute. auto. Qed.

(** C2, amended: in every execution [add] has been called on a prefix of
    the deltas, in the order of the model; the fragments the token buffer
    has handed out or still holds are exactly the non-empty ones among
    them, in that order; the [text] events written to [audio_queue] are
    the same prefix, all fragments included, short of at most the delta
    being processed; once [stream_claude] has left its loop all deltas
    are covered, and the two sequences are then the same exactly when no
    delta is empty. *)
Theorem fragments_reach_both_consumers (c : Session) (sched : list Tid) :
  (exists rest, model_deltas c = adds (snd (run c sched)) ++ rest)
  /\ spoken (snd (run c sched)) ++ queue (text_buffer (fst (run c sched)))
     = filter truthy (adds (snd (run c sched)))
  /\ (text_events (puts (snd (run c sched))) = adds (snd (run c sched))
      \/ exists last,
           adds (snd (run c sched))
           = text_events (puts (snd (run c sched))) ++ [last])
  /\ (claude_finished (claude_thread (fst (run c sched))) = true ->
      adds (snd (run c sched)) = model_deltas c
      /\ text_events (puts (snd (run c sched))) = model_deltas c
      /\ spoken (snd (run c sched))
         ++ queue (text_buffer (fst (run c sched)))
         = filter truthy (model_deltas c))
  /\ (claude_finished (claude_thread (fst (run c sched))) = true ->
      (spoken (snd (run c sched)) ++ queue (text_buffer (fst (run c sched)))
       = text_events (puts (snd (run c sched)))
       <-> Forall (fun f => f <> EmptyString) (model_deltas c))).
Proof.
  pose proof (run_reach c sched) as HR.
  set (s := fst (run c sched)) in *. set (tr := snd (run c sched)) in *.
  pose proof (ci_adds _ _ _ (claude_inv c s tr HR)) as Ha.
  pose proof (buffer_inv c s tr HR) as Hb.
  pose proof (text_events_inv c s tr HR) as Ht.
  assert (Hfin : claude_finished (claude_thread s) = true ->
                 adds tr = model_deltas c
                 /\ text_events (puts tr) = model_deltas c).
  { intros Hf. destruct (claude_thread s); try discriminate Hf;
      simpl in Ha, Ht; rewrite app_nil_r in Ha, Ht; auto. }
  split; [eexists; symmetry; exact Ha|].
  split; [exact Hb|].
  split; [exact (text_events_lag c s tr HR)|].
  split.
  - intros Hf. destruct (Hfin Hf) as [H1 H2]. rewrite <- H1 at 3. auto.
  - intros Hf. destruct (Hfin Hf) as [H1 H2].
    rewrite Hb, H1, H2. split.
    + apply filter_truthy_fixed.
    + apply filter_truthy_id.
Qed.

(** Two non-empty deltas: both consumers are offered the same. *)
Lemma fragments_reach_both_consumers_witness :
  spoken (snd (run (mkSession ["Hello"; " world"] Completed [] Completed)
                 [Claude; Claude; Claude; Claude; Claude; Fish; Fish; Fish]))
  ++ queue (text_buffer
              (fst (run (mkSession ["Hello"; " world"] Completed []
                           Completed)
                      [Claude; Claude; Claude; Claude; Claude; Fish; Fish;
                       Fish])))
  = text_events
      (puts (snd (run (mkSession ["Hello"; " world"] Completed [] Completed)
                    [Claude; Claude; Claude; Claude; Claude; Fish; Fish;
                     Fish]))).
Proof.
  apply (proj2 (proj2 (proj2 (proj2
           (fragments_reach_both_consumers
              (mkSession ["Hello"; " world"] Completed [] Completed)
              [Claude; Claude; Claude; Claude; Claude; Fish; Fish;
               Fish]))))).
  - reflexivity.
  - repeat constructor; discriminate.
Defined.

(** *** The two-fragment scenario *)

(** C8: the model delivers [Hello] and [ world] and completes; the
    speech session delivers the one chunk [01 02] and completes.  Then
    in every execution in which the read loop has been left, the
    chunks yielded are the two [text] lines in that order, the [audio]
    line of content [AQI=] at one of the three positions before the
    end, and the [done] line last; the loop is left under every schedule
    that gives each thread enough turns; and each of the three positions
    of the [audio] line occurs under some schedule. *)
Theorem hello_world_scenario :
  (forall evs sched,
      audio_chunks evs = [[x01; x02]%byte] ->
      relay_left
        (relay (fst (run (mkSession ["Hello"; " world"] Completed evs
                            Completed) sched))) = true ->
      let out :=
        yields (snd (run (mkSession ["Hello"; " world"] Completed evs
                            Completed) sched)) in
      out = [text_line "Hello"; text_line " world";
             audio_line [x01; x02]%byte; done_line]
      \/ out = [text_line "Hello"; audio_line [x01; x02]%byte;
                text_line " world"; done_line]
      \/ out = [audio_line [x01; x02]%byte; text_line "Hello";
                text_line " world"; done_line])
  /\ (forall evs s1 s2 s3,
        let c := mkSession ["Hello"; " world"] Completed evs Completed in
        enough c <= turns Claude s1 ->
        enough c <= turns Fish s2 ->
        enough c <= turns Relay s3 ->
        relay (fst (run c (s1 ++ s2 ++ s3))) = RelayStopped)
  /\ (let c := mkSession ["Hello"; " world"] Completed
                 [FishAudio [x01; x02]%byte] Completed in
      yields (snd (run c (repeat Claude 5 ++ repeat Fish 7
                          ++ repeat Relay 4)))
      = [text_line "Hello"; text_line " world";
         audio_line [x01; x02]%byte; done_line]
      /\ yields (snd (run c ([Claude; Claude; Fish; Claude; Claude; Claude]
                             ++ repeat Fish 6 ++ repeat Relay 4)))
         = [text_line "Hello"; audio_line [x01; x02]%byte;
            text_line " world"; done_line]
      /\ yields (snd (run c ([Fish] ++ repeat Claude 5 ++ repeat Fish 6
                             ++ repeat Relay 4)))
         = [audio_line [x01; x02]%byte; text_line "Hello";
            text_line " world"; done_line])
  /\ decode_event (audio_line [x01; x02]%byte) = Some (EAudio "AQI=")
  /\ map decode_event [text_line "Hello"; text_line " world"; done_line]
     = [Some (EText "Hello"); Some (EText " world"); Some EDone].
Proof.
  split; [|split; [|split; [|split]]].
  - intros evs sched Hev Hl out. subst out.
    destruct (completed_stream
                (mkSession ["Hello"; " world"] Completed evs Completed)
                _ _ (run_reach _ sched) eq_refl eq_refl Hl)
      as [X [Hy [HI _]]].
    rewrite Hy. cbn [model_deltas tts_events] in HI.
    rewrite audio_lines_chunks, Hev in HI. cbn [map] in HI.
    repeat match goal with
           | H : Interleave _ _ _ |- _ => inversion H; subst; clear H
           end;
      first [ left; reflexivity
            | right; left; reflexivity
            | right; right; reflexivity ].
  - intros evs s1 s2 s3 c H1 H2 H3.
    apply (session_terminates c s1 s2 s3 H1 H2 H3).
  - vm_compute. auto.
  - vm_compute. reflexivity.
  - vm_compute. reflexivity.
Qed.

(** A session that pulls once before delivering its chunk. *)
Lemma hello_world_scenario_witness :
  yields (snd (run (mkSession ["Hello"; " world"] Completed
                      [FishPull; FishAudio [x01; x02]%byte] Completed)
                 (repeat Claude 5 ++ repeat Fish 8 ++ repeat Relay 4)))
  = [text_line "Hello"; text_line " world";
     audio_line [x01; x02]%byte; done_line].
Proof.
  destruct (proj1 hello_world_scenario
              [FishPull; FishAudio [x01; x02]%byte]
              (repeat Claude 5 ++ repeat Fish 8 ++ repeat Relay 4)
              eq_refl) as [H | [H | H]].
  - vm_compute. reflexivity.
  - exact H.
  - vm_compute in H. discriminate H.
  - vm_compute in H. discriminate H.
Defined.

End Properties.

(* ================================================================== *)
(** ** Facts about the [str] methods *)
(* ================================================================== *)

Module PyStrFacts.
Import Py PyFacts PyStr.
Local Open Scope string_scope.

Lemma append_nil_r (s : string) : s ++ EmptyString = s.
Proof. induction s as [|c s IH]; simpl; [reflexivity | now rewrite IH]. Qed.

Lemma length_append (a b : string) :
  String.length (a ++ b) = String.length a + String.length b.
Proof. induction a as [|c a IH]; simpl; [reflexivity | now rewrite IH]. Qed.

(** *** [startswith] *)

Lemma startswith_app (p r : string) : startswith p (p ++ r) = true.
Proof.
  induction p as [|c p IH]; simpl; [reflexivity|].
  now rewrite Ascii.eqb_refl, IH.
Qed.

Lemma startswith_spec (p s : string) :
  startswith p s = true -> s = p ++ drop (String.length p) s.
Proof.
  revert s. induction p as [|c p IH]; intros s H; simpl in *; [reflexivity|].
  destruct s as [|d s]; [discriminate|].
  apply andb_true_iff in H. destruct H as [H1 H2].
  apply Ascii.eqb_eq in H1. subst d. simpl. f_equal. now apply IH.
Qed.

Lemma startswith_mono (p x y : string) :
  startswith p x = true -> startswith p (x ++ y) = true.
Proof.
  revert x. induction p as [|c p IH]; intros x H; simpl in *; [reflexivity|].
  destruct x as [|d x]; [discriminate|]. simpl.
  apply andb_true_iff in H. destruct H as [H1 H2].
  rewrite H1. simpl. now apply IH.
Qed.

Lemma startswith_short (p x y : string) :
  startswith p (x ++ y) = true -> String.length p <= String.length x ->
  startswith p x = true.
Proof.
  revert x. induction p as [|c p IH]; intros x H Hl; simpl in *;
    [reflexivity|].
  destruct x as [|d x]; simpl in *; [lia|].
  apply andb_true_iff in H. destruct H as [H1 H2].
  rewrite H1. simpl. apply IH; [assumption | lia].
Qed.

Lemma drop_app_length (a b : string) : drop (String.length a) (a ++ b) = b.
Proof. induction a as [|c a IH]; simpl; auto. Qed.

(** *** [partition] *)

Lemma partition_cons (sep : string) (c : ascii) (r : string) :
  startswith sep (String c r) = false ->
  partition sep (String c r)
  = match partition sep r with
    | Some (before, after) => Some (String c before, after)
    | None => None
    end.
Proof. intros H. cbn [partition]. now rewrite H. Qed.

Lemma partition_here (sep s : string) :
  startswith sep s = true ->
  partition sep s = Some (EmptyString, drop (String.length sep) s).
Proof. intros H. destruct s; cbn [partition]; now rewrite H. Qed.

(** What [partition] returns are the two sides of an occurrence. *)
Lemma partition_spec (sep s before after : string) :
  partition sep s = Some (before, after) -> s = before ++ sep ++ after.
Proof.
  revert before after. induction s as [|c s IH]; intros b a H.
  - cbn [partition] in H. destruct (startswith sep EmptyString) eqn:E;
      [|discriminate]. inversion H; subst. now apply startswith_spec.
  - destruct (startswith sep (String c s)) eqn:E.
    + rewrite partition_here in H by assumption. inversion H; subst.
      now apply startswith_spec.
    + rewrite partition_cons in H by assumption.
      destruct (partition sep s) as [[b' a']|]; [|discriminate].
      inversion H; subst. simpl. f_equal. now apply IH.
Qed.

(** The occurrence is the first one: no occurrence in what is before. *)
Lemma partition_before (sep s before after : string) :
  sep <> EmptyString ->
  partition sep s = Some (before, after) -> partition sep before = None.
Proof.
  intros Hne. revert before after.
  induction s as [|c s IH]; intros b a H.
  - destruct sep; [congruence|]. discriminate H.
  - destruct (startswith sep (String c s)) eqn:E.
    + rewrite partition_here in H by assumption. inversion H; subst.
      destruct sep; [congruence|]. reflexivity.
    + rewrite partition_cons in H by assumption.
      destruct (partition sep s) as [[b' a']|] eqn:E2; [|discriminate].
      inversion H; subst.
      assert (Hs : startswith sep (String c b') = false).
      { destruct (startswith sep (String c b')) eqn:E3; [|reflexivity].
        pose proof (partition_spec _ _ _ _ E2) as Hsp. subst s.
        change (String c (b' ++ sep ++ a))
          with (String c b' ++ (sep ++ a)) in E.
        rewrite (startswith_mono _ _ _ E3) in E. discriminate. }
      rewrite partition_cons by assumption.
      now rewrite (IH _ _ eq_refl).
Qed.

Lemma partition_none_app_l (sep x y : string) :
  partition sep (x ++ y) = None -> partition sep x = None.
Proof.
  induction x as [|c x IH]; intros H.
  - destruct sep as [|d sep]; [|reflexivity].
    destruct y; discriminate H.
  - change (String c x ++ y) with (String c (x ++ y)) in H.
    destruct (startswith sep (String c x)) eqn:E.
    + pose proof (startswith_mono _ _ y E) as E'.
      change (String c x ++ y) with (String c (x ++ y)) in E'.
      rewrite partition_here in H by assumption. discriminate.
    + destruct (startswith sep (String c (x ++ y))) eqn:E2.
      * rewrite partition_here in H by assumption. discriminate.
      * rewrite partition_cons in H by assumption.
        rewrite partition_cons by assumption.
        destruct (partition sep (x ++ y)) as [[? ?]|]; [discriminate|].
        now rewrite IH.
Qed.

Lemma partition_none_app_r (sep x y : string) :
  partition sep (x ++ y) = None -> partition sep y = None.
Proof.
  induction x as [|c x IH]; intros H; [exact H|].
  change (String c x ++ y) with (String c (x ++ y)) in H.
  destruct (startswith sep (String c (x ++ y))) eqn:E.
  - rewrite partition_here in H by assumption. discriminate.
  - rewrite partition_cons in H by assumption.
    destruct (partition sep (x ++ y)) as [[? ?]|]; [discriminate|].
    now apply IH.
Qed.

Lemma but_last_spec (s : string) :
  s <> EmptyString -> exists l, s = but_last s ++ str1 l.
Proof.
  induction s as [|c s IH]; intros H; [congruence|].
  destruct s as [|d s].
  - exists c. reflexivity.
  - destruct IH as [l Hl]; [discriminate|]. exists l.
    change (but_last (String c (String d s)))
      with (String c (but_last (String d s))).
    change (String c (but_last (String d s)) ++ str1 l)
      with (String c (but_last (String d s) ++ str1 l)).
    now rewrite <- Hl.
Qed.

Lemma but_last_length (s : string) :
  s <> EmptyString -> S (String.length (but_last s)) = String.length s.
Proof.
  intros H. destruct (but_last_spec s H) as [l Hl].
  rewrite Hl at 2. rewrite length_append. simpl. lia.
Qed.

(** An occurrence that follows a text in which none starts is found at
    that place; occurrences that would start in [x] and end in the
    separator are excluded by looking at [x + sep[:-1]]. *)
Lemma partition_first (sep x r : string) :
  sep <> EmptyString ->
  contains sep (x ++ but_last sep) = false ->
  partition sep (x ++ sep ++ r) = Some (x, r).
Proof.
  intros Hne. unfold contains.
  destruct (but_last_spec sep Hne) as [l Hl].
  pose proof (but_last_length sep Hne) as Hlen.
  induction x as [|c x IH]; intros H.
  - simpl. rewrite partition_here by apply startswith_app.
    now rewrite drop_app_length.
  - change (String c x ++ but_last sep)
      with (String c (x ++ but_last sep)) in H.
    destruct (startswith sep (String c (x ++ but_last sep))) eqn:E.
    + rewrite partition_here in H by assumption. discriminate.
    + rewrite partition_cons in H by assumption.
      change (String c x ++ sep ++ r) with (String c (x ++ sep ++ r)).
      assert (E2 : startswith sep (String c (x ++ sep ++ r)) = false).
      { destruct (startswith sep (String c (x ++ sep ++ r))) eqn:E3;
          [|reflexivity].
        rewrite Hl in E3 at 2.
        replace (String c (x ++ (but_last sep ++ str1 l) ++ r))
          with (String c (x ++ but_last sep) ++ (str1 l ++ r)) in E3
          by (simpl; now rewrite !append_assoc).
        apply startswith_short in E3; [congruence|].
        simpl. rewrite length_append. lia. }
      rewrite partition_cons by assumption.
      rewrite IH; [reflexivity|].
      destruct (partition sep (x ++ but_last sep)) as [[? ?]|];
        [discriminate | reflexivity].
Qed.

Lemma contains_app_false (sep x y : string) :
  contains sep (x ++ y) = false ->
  contains sep x = false /\ contains sep y = false.
Proof.
  unfold contains. intros H.
  destruct (partition sep (x ++ y)) as [[? ?]|] eqn:E; [discriminate|].
  now rewrite (partition_none_app_l _ _ _ E), (partition_none_app_r _ _ _ E).
Qed.

Lemma before_clear (sep s : string) :
  sep <> EmptyString -> contains sep (before sep s) = false.
Proof.
  intros Hne. unfold before, contains.
  destruct (partition sep s) as [[b a]|] eqn:E.
  - now rewrite (partition_before _ _ _ _ Hne E).
  - now rewrite E.
Qed.

Lemma before_prefix (sep s : string) :
  exists rest, s = before sep s ++ rest.
Proof.
  unfold before. destruct (partition sep s) as [[b a]|] eqn:E.
  - exists (sep ++ a). now apply partition_spec.
  - exists EmptyString. now rewrite append_nil_r.
Qed.

(** *** [split] *)

Lemma partition_shorter (sep s b a : string) :
  sep <> EmptyString -> partition sep s = Some (b, a) ->
  String.length a < String.length s.
Proof.
  intros Hne H. apply partition_spec in H. subst s.
  rewrite !length_append. destruct sep; [congruence|]. simpl. lia.
Qed.

Lemma split_fuel_enough (sep : string) :
  sep <> EmptyString ->
  forall f1 f2 s,
    String.length s <= f1 -> String.length s <= f2 ->
    split_fuel f1 sep s = split_fuel f2 sep s.
Proof.
  intros Hne. induction f1 as [|f1 IH]; intros f2 s H1 H2.
  - destruct s; [|simpl in H1; lia].
    destruct sep; [congruence|]. destruct f2; reflexivity.
  - destruct f2 as [|f2].
    + destruct s; [|simpl in H2; lia].
      destruct sep; [congruence|]. reflexivity.
    + cbn [split_fuel]. destruct (partition sep s) as [[b a]|] eqn:E;
        [|reflexivity].
      pose proof (partition_shorter _ _ _ _ Hne E).
      f_equal. apply IH; lia.
Qed.

(** The equation of [split]. *)
Lemma split_unfold (sep s : string) :
  sep <> EmptyString ->
  split sep s = match partition sep s with
                | None => [s]
                | Some (b, a) => b :: split sep a
                end.
Proof.
  intros Hne. unfold split.
  destruct (partition sep s) as [[b a]|] eqn:E.
  - pose proof (partition_shorter _ _ _ _ Hne E) as Hl.
    destruct (String.length s) as [|n] eqn:En; [lia|].
    cbn [split_fuel]. rewrite E. f_equal.
    apply split_fuel_enough; [assumption | lia | lia].
  - destruct (String.length s); cbn [split_fuel]; now rewrite E.
Qed.

Lemma split_first (sep s : string) :
  sep <> EmptyString -> nth_error (split sep s) 0 = Some (before sep s).
Proof.
  intros Hne. rewrite split_unfold by assumption. unfold before.
  destruct (partition sep s) as [[b a]|]; reflexivity.
Qed.

Lemma split_second (sep s b a : string) :
  sep <> EmptyString -> partition sep s = Some (b, a) ->
  nth_error (split sep s) 1 = Some (before sep a).
Proof.
  intros Hne H. rewrite split_unfold by assumption. rewrite H.
  cbn [nth_error]. now apply split_first.
Qed.

Lemma split_second_none (sep s : string) :
  sep <> EmptyString -> partition sep s = None ->
  nth_error (split sep s) 1 = None.
Proof.
  intros Hne H. rewrite split_unfold by assumption. now rewrite H.
Qed.

(** *** [strip] *)

Lemma lstrip_suffix (s : string) : exists l, s = l ++ lstrip s.
Proof.
  induction s as [|c s [l IH]]; [now exists EmptyString|].
  simpl. destruct (isspace c).
  - exists (String c l). simpl. now rewrite <- IH.
  - now exists EmptyString.
Qed.

Lemma rstrip_prefix (s : string) : exists r, s = rstrip s ++ r.
Proof.
  induction s as [|c s [r IH]]; [now exists EmptyString|].
  simpl. destruct (rstrip s) as [|x y] eqn:E.
  - destruct (isspace c).
    + now exists (String c s).
    + exists s. reflexivity.
  - exists r. simpl in *. now rewrite <- IH.
Qed.

(** What is stripped is part of the text: nothing can occur in it that
    does not occur in the text. *)
Lemma contains_strip (sep s : string) :
  contains sep s = false -> contains sep (strip s) = false.
Proof.
  intros H. unfold strip.
  destruct (lstrip_suffix s) as [l Hl]. rewrite Hl in H.
  apply contains_app_false in H. destruct H as [_ H].
  destruct (rstrip_prefix (lstrip s)) as [r Hr]. rewrite Hr in H.
  apply contains_app_false in H. tauto.
Qed.

Lemma lstrip_head (s : string) :
  match lstrip s with
  | EmptyString => blank s = true
  | String c _ => isspace c = false /\ blank s = false
  end.
Proof.
  induction s as [|c s IH]; simpl; [reflexivity|].
  destruct (isspace c) eqn:E; simpl.
  - exact IH.
  - now rewrite E.
Qed.

Lemma rstrip_blank (s : string) :
  rstrip s = EmptyString <-> blank s = true.
Proof.
  induction s as [|c s IH]; simpl; [tauto|].
  destruct (rstrip s) as [|x y]; destruct (isspace c); simpl.
  - rewrite <- IH. tauto.
  - split; discriminate.
  - rewrite <- IH. split; discriminate.
  - split; discriminate.
Qed.

Lemma rstrip_head (c : ascii) (r : string) :
  isspace c = false -> exists r', rstrip (String c r) = String c r'.
Proof.
  intros H. simpl. destruct (rstrip r); rewrite ?H; unfold str1; eauto.
Qed.

(** [not s.strip()] holds exactly for the texts of white space only. *)
Lemma strip_blank (s : string) : strip s = EmptyString <-> blank s = true.
Proof.
  unfold strip. pose proof (lstrip_head s) as H.
  destruct (lstrip s) as [|c r].
  - simpl. tauto.
  - destruct H as [H1 H2]. destruct (rstrip_head c r H1) as [r' Hr].
    rewrite Hr, H2. split; discriminate.
Qed.

Lemma rstrip_idem (s : string) : rstrip (rstrip s) = rstrip s.
Proof.
  induction s as [|c s IH]; [reflexivity|].
  cbn [rstrip]. destruct (rstrip s) as [|x y] eqn:E.
  - destruct (isspace c) eqn:Ec; [reflexivity|]. simpl. now rewrite Ec.
  - cbn [rstrip]. cbn [rstrip] in IH. rewrite IH. reflexivity.
Qed.

Lemma strip_idem (s : string) : strip (strip s) = strip s.
Proof.
  unfold strip. pose proof (lstrip_head s) as H.
  destruct (lstrip s) as [|c r]; [reflexivity|].
  destruct H as [H1 _]. destruct (rstrip_head c r H1) as [r' Hr].
  rewrite Hr. cbn [lstrip]. rewrite H1. rewrite <- Hr. apply rstrip_idem.
Qed.

Lemma blank_app (a b : string) : blank (a ++ b) = blank a && blank b.
Proof.
  induction a as [|c a IH]; simpl; [reflexivity|].
  now rewrite IH, andb_assoc.
Qed.

Lemma blank_join (sep : string) (l : list string) :
  blank sep = true -> blank (join sep l) = forallb blank l.
Proof.
  intros Hs. induction l as [|x l IH]; [reflexivity|].
  destruct l as [|y l].
  - simpl. now rewrite andb_true_r.
  - change (join sep (x :: y :: l)) with (x ++ sep ++ join sep (y :: l)).
    rewrite !blank_app, Hs, IH. reflexivity.
Qed.

End PyStrFacts.

(* ================================================================== *)
(** ** Fenced blocks in a response *)
(* ================================================================== *)

Module FenceFacts.
Import Py PyFacts PyStr PyStrFacts VoiceServer Endpoints.
Local Open Scope string_scope.

Lemma fence_ne : fence <> EmptyString.
Proof. unfold fence. discriminate. Qed.

Lemma tag_ne (word : string) : fence ++ word <> EmptyString.
Proof. unfold fence. simpl. discriminate. Qed.

Lemma before_cons (sep : string) (c : ascii) (r : string) :
  startswith sep (String c r) = false ->
  before sep (String c r) = String c (before sep r).
Proof.
  intros H. unfold before. rewrite partition_cons by assumption.
  destruct (partition sep r) as [[b a]|]; reflexivity.
Qed.

Lemma before_here (sep s : string) :
  startswith sep s = true -> before sep s = EmptyString.
Proof. intros H. unfold before. now rewrite partition_here. Qed.

Lemma startswith_app_l (f w s : string) :
  startswith (f ++ w) s = true -> startswith f s = true.
Proof.
  revert s. induction f as [|c f IH]; intros s H; [reflexivity|].
  destruct s as [|d s]; [discriminate|]. simpl in *.
  apply andb_true_iff in H. destruct H as [H1 H2].
  rewrite H1. simpl. now apply IH.
Qed.

Lemma backtick_first (w post : string) :
  startswith "`" post = false -> startswith (String "`" w) post = false.
Proof.
  destruct post as [|d post]; [reflexivity|]. cbn [startswith].
  destruct (Ascii.eqb "`" d); [discriminate | reflexivity].
Qed.

Lemma startswith_cons (a : ascii) (p s : string) :
  startswith (String a p) (String a s) = startswith p s.
Proof. cbn [startswith]. now rewrite Ascii.eqb_refl. Qed.

Lemma tag_not_at_2 (word post : string) :
  startswith "`" post = false ->
  startswith (fence ++ word) (String "`" (String "`" post)) = false.
Proof.
  intros H.
  change (fence ++ word) with (String "`" (String "`" (String "`" word))).
  rewrite !startswith_cons. now apply backtick_first.
Qed.

Lemma tag_not_at_1 (word post : string) :
  startswith "`" post = false ->
  startswith (fence ++ word) (String "`" post) = false.
Proof.
  intros H.
  change (fence ++ word) with (String "`" (String "`" (String "`" word))).
  rewrite !startswith_cons. now apply backtick_first.
Qed.

(** [text.split(tag)[1].split('```')[0].strip()] when [tag] occurs. *)
Lemma fenced_eq (tag t b a : string) :
  tag <> EmptyString -> partition tag t = Some (b, a) ->
  fenced tag t = Some (strip (before fence (before tag a))).
Proof.
  intros Hne H. unfold fenced.
  rewrite (split_second _ _ _ _ Hne H).
  rewrite split_first by exact fence_ne. reflexivity.
Qed.

Lemma fenced_total (tag t : string) :
  tag <> EmptyString -> contains tag t = true ->
  exists r, fenced tag t = Some r
            /\ contains fence r = false /\ strip r = r.
Proof.
  intros Hne H. unfold contains in H.
  destruct (partition tag t) as [[b a]|] eqn:E; [|discriminate].
  eexists. split; [now apply (fenced_eq tag t b a)|]. split.
  - apply contains_strip. apply before_clear. exact fence_ne.
  - apply strip_idem.
Qed.

(** Between a tagged opening fence and the closing fence. *)
Lemma before_fence_before_tag (word post : string) :
  startswith "`" post = false ->
  forall body,
    contains fence (body ++ "``") = false ->
    before fence (before (fence ++ word) (body ++ fence ++ post)) = body.
Proof.
  intros Hp. induction body as [|c body IH]; intros Hb.
  - change (EmptyString ++ fence ++ post)
      with (String "`" (String "`" (String "`" post))).
    destruct (startswith (fence ++ word)
                (String "`" (String "`" (String "`" post)))) eqn:E.
    + rewrite (before_here _ _ E). reflexivity.
    + rewrite before_cons by assumption.
      rewrite (before_cons (fence ++ word)) by now apply tag_not_at_2.
      rewrite (before_cons (fence ++ word)) by now apply tag_not_at_1.
      apply before_here. reflexivity.
  - change (String c body ++ fence ++ post)
      with (String c (body ++ fence ++ post)).
    assert (Hf : startswith fence (String c (body ++ fence ++ post)) = false).
    { destruct (startswith fence (String c (body ++ fence ++ post))) eqn:E;
        [|reflexivity].
      replace (String c (body ++ fence ++ post))
        with (String c (body ++ "``") ++ String "`" post) in E
        by (simpl; now rewrite append_assoc).
      apply startswith_short in E;
        [|simpl; rewrite length_append; simpl; lia].
      unfold contains in Hb.
      change (String c body ++ "``") with (String c (body ++ "``")) in Hb.
      rewrite partition_here in Hb by assumption. discriminate. }
    assert (Hb' : contains fence (body ++ "``") = false).
    { change (String c body ++ "``") with (str1 c ++ (body ++ "``")) in Hb.
      apply contains_app_false in Hb. tauto. }
    assert (Ht : startswith (fence ++ word)
                   (String c (body ++ fence ++ post)) = false).
    { destruct (startswith (fence ++ word)
                  (String c (body ++ fence ++ post))) eqn:E; [|reflexivity].
      apply startswith_app_l in E. congruence. }
    rewrite before_cons by assumption.
    assert (Hf2 : startswith fence
                    (String c (before (fence ++ word)
                                 (body ++ fence ++ post))) = false).
    { destruct (startswith fence
                  (String c (before (fence ++ word)
                               (body ++ fence ++ post)))) eqn:E;
        [|reflexivity].
      destruct (before_prefix (fence ++ word) (body ++ fence ++ post))
        as [rest Hr].
      apply (startswith_mono _ _ rest) in E.
      change (String c (before (fence ++ word) (body ++ fence ++ post))
              ++ rest)
        with (String c (before (fence ++ word) (body ++ fence ++ post)
                        ++ rest)) in E.
      rewrite <- Hr in E. congruence. }
    rewrite before_cons by assumption.
    now rewrite IH.
Qed.

Lemma fenced_round_trip (word pre body post : string) :
  contains (fence ++ word) (pre ++ but_last (fence ++ word)) = false ->
  contains fence (body ++ "``") = false ->
  startswith "`" post = false ->
  partition (fence ++ word) (pre ++ (fence ++ word) ++ body ++ fence ++ post)
  = Some (pre, body ++ fence ++ post)
  /\ fenced (fence ++ word)
       (pre ++ (fence ++ word) ++ body ++ fence ++ post)
     = Some (strip body).
Proof.
  intros Hpre Hb Hp.
  assert (H : partition (fence ++ word)
                (pre ++ (fence ++ word) ++ body ++ fence ++ post)
              = Some (pre, body ++ fence ++ post))
    by (apply partition_first; [apply tag_ne | assumption]).
  split; [exact H|].
  rewrite (fenced_eq _ _ _ _ (tag_ne word) H).
  now rewrite before_fence_before_tag.
Qed.

End FenceFacts.

(* ================================================================== *)
(** ** Properties of the other endpoints *)
(* ================================================================== *)

Module FencedBlocks.
Import Py PyFacts PyStr PyStrFacts VoiceServer Observations Endpoints.
Import FenceFacts LineFacts.
Local Open Scope string_scope.

(** *** Fenced blocks *)

Lemma contains_here (sep s : string) :
  startswith sep s = true -> contains sep s = true.
Proof. intros H. unfold contains. now rewrite partition_here. Qed.

(** X1: none of the extractions of a fenced block indexes a [split] out
    of range, whatever the response: [parse_claude_json] gets a text
    with no fence in it and no white space around it; the variants of
    [backend_server.py] and [api.py] that keep an unfenced response as it
    is get a text with no fence in it; [process_lecture] gets a text. *)
Theorem fenced_blocks_never_fail (response_text : string) :
  (exists r, json_text response_text = Some r
             /\ contains fence r = false /\ strip r = r)
  /\ (exists r, json_text_raw response_text = Some r
                /\ contains fence r = false)
  /\ (exists r, python_code response_text = Some r
                /\ contains fence r = false)
  /\ (exists r, html_content response_text = Some r).
Proof.
  assert (F : forall word,
             contains (fence ++ word) response_text = true ->
             exists r, fenced (fence ++ word) response_text = Some r
                       /\ contains fence r = false /\ strip r = r)
    by (intros word; apply fenced_total; apply tag_ne).
  unfold json_text, json_text_raw, python_code, html_content.
  repeat split.
  - destruct (contains "```json" response_text) eqn:E1;
      [exact (F "json" E1)|].
    destruct (contains fence response_text) eqn:E2;
      [exact (F EmptyString E2)|].
    eexists. split; [reflexivity|]. split.
    + now apply contains_strip.
    + apply strip_idem.
  - destruct (contains "```json" response_text) eqn:E1;
      [destruct (F "json" E1) as [r [H1 [H2 _]]]; eauto|].
    destruct (contains fence response_text) eqn:E2;
      [destruct (F EmptyString E2) as [r [H1 [H2 _]]]; eauto|].
    eauto.
  - destruct (contains "```python" response_text) eqn:E1;
      [destruct (F "python" E1) as [r [H1 [H2 _]]]; eauto|].
    destruct (contains fence response_text) eqn:E2;
      [destruct (F EmptyString E2) as [r [H1 [H2 _]]]; eauto|].
    eauto.
  - destruct (startswith "```html" response_text) eqn:E1.
    + destruct (F "html" (contains_here _ _ E1)) as [r [H1 _]]. eauto.
    + destruct (startswith fence response_text) eqn:E2.
      * destruct (F EmptyString (contains_here _ _ E2)) as [r [H1 _]]. eauto.
      * eauto.
Qed.

Lemma contains_first (sep x r : string) :
  sep <> EmptyString ->
  contains sep (x ++ but_last sep) = false ->
  contains sep (x ++ sep ++ r) = true.
Proof.
  intros Hne H. unfold contains.
  now rewrite (partition_first sep x r Hne H).
Qed.

(** X2: a JSON payload in a [```json] fence is found whatever prose is
    around it: when no [```json] starts in the text before the fence, no
    fence starts in the payload and the closing fence is not followed by
    a backtick, [parse_claude_json] (and the variants of
    [backend_server.py]) pass exactly the stripped payload to
    [json.loads]. *)
Theorem json_text_round_trip (pre body post : string) :
  contains "```json" (pre ++ "```jso") = false ->
  contains fence (body ++ "``") = false ->
  startswith "`" post = false ->
  json_text (pre ++ "```json" ++ body ++ fence ++ post) = Some (strip body)
  /\ json_text_raw (pre ++ "```json" ++ body ++ fence ++ post)
     = Some (strip body).
Proof.
  intros Hpre Hb Hp.
  destruct (fenced_round_trip "json" pre body post Hpre Hb Hp) as [H1 H2].
  unfold json_text, json_text_raw, contains.
  change ("```json") with (fence ++ "json").
  rewrite H1. auto.
Qed.

(** A response of a model, as it comes. *)
Lemma json_text_round_trip_witness :
  json_text ("Here are the cards:" ++ str1 newline ++ "```json"
             ++ (str1 newline ++ "{}" ++ str1 newline)
             ++ fence ++ (str1 newline ++ "Good luck!"))
  = Some "{}".
Proof.
  apply (json_text_round_trip ("Here are the cards:" ++ str1 newline)
           (str1 newline ++ "{}" ++ str1 newline)
           (str1 newline ++ "Good luck!")); reflexivity.
Defined.

(** X3: the same for Python code in a [```python] fence, in
    [generate_manim] of [backend_server.py] and [generate_animation] of
    [api.py]. *)
Theorem python_code_round_trip (pre body post : string) :
  contains "```python" (pre ++ "```pytho") = false ->
  contains fence (body ++ "``") = false ->
  startswith "`" post = false ->
  python_code (pre ++ "```python" ++ body ++ fence ++ post)
  = Some (strip body).
Proof.
  intros Hpre Hb Hp.
  destruct (fenced_round_trip "python" pre body post Hpre Hb Hp) as [H1 H2].
  unfold python_code, contains.
  change ("```python") with (fence ++ "python").
  rewrite H1. exact H2.
Qed.

Lemma python_code_round_trip_witness :
  python_code ("Sure!" ++ str1 newline ++ "```python"
               ++ (str1 newline ++ "from manim import *" ++ str1 newline)
               ++ fence ++ EmptyString)
  = Some "from manim import *".
Proof.
  apply (python_code_round_trip ("Sure!" ++ str1 newline)
           (str1 newline ++ "from manim import *" ++ str1 newline)
           EmptyString); reflexivity.
Defined.

(** X4: [process_lecture] of [txt_to_note.py] unwraps a response that
    starts with a [```html] fence: what is written to the file is the
    stripped text up to the closing fence. *)
Theorem html_content_round_trip (body post : string) :
  contains fence (body ++ "``") = false ->
  startswith "`" post = false ->
  html_content ("```html" ++ body ++ fence ++ post) = Some (strip body).
Proof.
  intros Hb Hp.
  destruct (fenced_round_trip "html" EmptyString body post eq_refl Hb Hp)
    as [H1 H2].
  unfold html_content.
  assert (S : startswith "```html" ("```html" ++ body ++ fence ++ post) = true)
    by apply startswith_app.
  rewrite S. exact H2.
Qed.

Lemma html_content_round_trip_witness :
  html_content ("```html" ++ (str1 newline ++ "<html></html>" ++ str1 newline)
                ++ fence ++ EmptyString)
  = Some "<html></html>".
Proof.
  apply (html_content_round_trip
           (str1 newline ++ "<html></html>" ++ str1 newline) EmptyString);
    reflexivity.
Defined.

End FencedBlocks.

Module EndpointFacts.
Import Py PyFacts PyStr PyStrFacts VoiceServer Observations Endpoints.
Import FenceFacts LineFacts.
Local Open Scope string_scope.

(** *** Code blocks by regular expression *)

Lemma search_fenced_clear (opening t code : string) :
  search_fenced opening t = Some code ->
  contains (String newline fence) code = false.
Proof.
  unfold search_fenced. intros H.
  destruct (partition opening t) as [[b rest]|]; [|discriminate].
  destruct (partition (String newline fence) rest) as [[c a]|] eqn:E;
    [|discriminate].
  injection H as <-. unfold contains.
  rewrite (partition_before (String newline fence) _ _ _
             ltac:(discriminate) E).
  reflexivity.
Qed.

Lemma contains_intro (sep x y : string) :
  contains sep (x ++ sep ++ y) = true.
Proof.
  unfold contains.
  destruct (partition sep (x ++ sep ++ y)) as [[b a]|] eqn:E;
    [reflexivity|].
  apply partition_none_app_r in E.
  rewrite (partition_here sep (sep ++ y) (startswith_app sep y)) in E.
  discriminate.
Qed.

Lemma drop_app_le (n : nat) (u y : string) :
  n <= String.length u -> drop n (u ++ y) = drop n u ++ y.
Proof.
  revert u. induction n as [|n IH]; intros u H.
  - destruct u; reflexivity.
  - destruct u as [|c u]; simpl in H; [lia|]. simpl. apply IH. lia.
Qed.

(** What follows the first occurrence of [sep] holds what follows any
    occurrence. *)
Lemma partition_leftmost (sep s : string) :
  forall b a x y,
    partition sep s = Some (b, a) -> s = x ++ sep ++ y ->
    exists z, a = z ++ y.
Proof.
  induction s as [|c r IH]; intros b a x y Hp Hs.
  - destruct x; [destruct sep|]; simpl in *; try discriminate.
    injection Hp as <- <-. exists EmptyString. destruct y; [reflexivity|].
    discriminate.
  - destruct (startswith sep (String c r)) eqn:E.
    + rewrite (partition_here _ _ E) in Hp. injection Hp as <- <-.
      rewrite Hs, <- append_assoc, drop_app_le.
      * eexists. reflexivity.
      * rewrite length_append. lia.
    + rewrite (partition_cons _ _ _ E) in Hp.
      destruct (partition sep r) as [[b' a']|] eqn:Er; [|discriminate].
      injection Hp as <- <-.
      destruct x as [|c' x].
      * simpl in Hs. rewrite Hs, startswith_app in E. discriminate.
      * simpl in Hs. injection Hs as -> Hr.
        exact (IH b' a' x y eq_refl Hr).
Qed.

Lemma search_fenced_none (opening t : string) :
  search_fenced opening t = None -> ~ has_block opening t.
Proof.
  unfold search_fenced. intros H [pre [code [post Ht]]].
  destruct (partition opening t) as [[b rest]|] eqn:E.
  - destruct (partition_leftmost _ _ _ _ _ _ E Ht) as [z Hz].
    pose proof (contains_intro (String newline fence) (z ++ code) post)
      as Hc.
    rewrite append_assoc, <- Hz in Hc. unfold contains in Hc.
    destruct (partition (String newline fence) rest) as [[c a]|];
      discriminate.
  - pose proof (contains_intro opening pre
                  (code ++ String newline fence ++ post)) as Hc.
    rewrite <- Ht in Hc. unfold contains in Hc. rewrite E in Hc.
    discriminate.
Qed.

Lemma search_fenced_some (opening t code : string) :
  search_fenced opening t = Some code ->
  exists pre post,
    t = pre ++ opening ++ code ++ String newline fence ++ post.
Proof.
  unfold search_fenced. intros H.
  destruct (partition opening t) as [[b rest]|] eqn:E; [|discriminate].
  destruct (partition (String newline fence) rest) as [[c a]|] eqn:E2;
    [|discriminate].
  injection H as <-. exists b, a.
  rewrite (partition_spec _ _ _ _ E), (partition_spec _ _ _ _ E2).
  reflexivity.
Qed.

Lemma block_shorter (pre opening code post : string) :
  pre ++ opening ++ code ++ String newline fence ++ post <> code.
Proof.
  intros H. apply (f_equal String.length) in H.
  rewrite !length_append in H. simpl in H. lia.
Qed.

(** X5: the code [generate_manim] and [generate_manim_custom] answer is
    the whole response exactly when the response holds no block, neither
    after a [```python] line nor after a bare fence line.  Otherwise it
    is the code of a block of the response, one after a [```python] line
    if there is any, and it has no newline followed by a fence. *)
Theorem manim_code_block (response_text : string) :
  let python := "```python" ++ str1 newline in
  let bare := "```" ++ str1 newline in
  (manim_code response_text = response_text
   <-> ~ has_block python response_text /\ ~ has_block bare response_text)
  /\ (manim_code response_text = response_text
      \/ exists opening pre post,
           (opening = python
            \/ opening = bare /\ ~ has_block python response_text)
           /\ response_text
              = pre ++ opening ++ manim_code response_text
                ++ String newline fence ++ post
           /\ contains (String newline fence) (manim_code response_text)
              = false).
Proof.
  cbv zeta. unfold manim_code.
  destruct (search_fenced ("```python" ++ str1 newline) response_text)
    as [code|] eqn:E1.
  - destruct (search_fenced_some _ _ _ E1) as [pre [post Ht]]. split.
    + split.
      * intros H. exfalso. rewrite <- H in Ht at 1.
        symmetry in Ht. exact (block_shorter _ _ _ _ Ht).
      * intros [H _]. exfalso. apply H. exists pre, code, post. exact Ht.
    + right. exists ("```python" ++ str1 newline), pre, post.
      split; [now left|]. split; [exact Ht|].
      eapply search_fenced_clear; eassumption.
  - pose proof (search_fenced_none _ _ E1) as N1.
    destruct (search_fenced ("```" ++ str1 newline) response_text)
      as [code|] eqn:E2.
    + destruct (search_fenced_some _ _ _ E2) as [pre [post Ht]]. split.
      * split.
        -- intros H. exfalso. rewrite <- H in Ht at 1.
           symmetry in Ht. exact (block_shorter _ _ _ _ Ht).
        -- intros [_ H]. exfalso. apply H. exists pre, code, post.
           exact Ht.
      * right. exists ("```" ++ str1 newline), pre, post.
        split; [right; split; [reflexivity|exact N1]|].
        split; [exact Ht|]. eapply search_fenced_clear; eassumption.
    + pose proof (search_fenced_none _ _ E2) as N2. split.
      * split; [intros _; split; assumption | reflexivity].
      * now left.
Qed.

(** X6: a block that opens with the line [```python] is taken out of its
    fences with nothing stripped: when the opening line does not occur
    before the block and no newline followed by a fence starts in the
    code, the answer of [generate_manim] is the code between the opening
    line and the first newline followed by a fence. *)
Theorem manim_code_round_trip (pre code post : string) :
  contains ("```python" ++ str1 newline) (pre ++ "```python") = false ->
  contains (String newline fence) (code ++ String newline "``") = false ->
  manim_code (pre ++ ("```python" ++ str1 newline) ++ code
              ++ String newline fence ++ post) = code.
Proof.
  intros Hpre Hcode. unfold manim_code, search_fenced.
  rewrite (partition_first ("```python" ++ str1 newline) pre
             (code ++ String newline fence ++ post)
             ltac:(discriminate) Hpre).
  rewrite (partition_first (String newline fence) code post
             ltac:(discriminate) Hcode).
  reflexivity.
Qed.

Lemma manim_code_round_trip_witness :
  manim_code ("Here is the scene:" ++ str1 newline
              ++ ("```python" ++ str1 newline)
              ++ ("from manim import *" ++ str1 newline ++ "  pass  ")
              ++ String newline fence ++ (str1 newline ++ "Enjoy!"))
  = "from manim import *" ++ str1 newline ++ "  pass  ".
Proof.
  apply (manim_code_round_trip ("Here is the scene:" ++ str1 newline)
           ("from manim import *" ++ str1 newline ++ "  pass  ")
           (str1 newline ++ "Enjoy!")); reflexivity.
Defined.

(** *** Lectures and samples *)

Lemma blank_truthy_strip (s : string) :
  negb (truthy (strip s)) = blank s.
Proof.
  destruct (blank s) eqn:B.
  - apply strip_blank in B. now rewrite B.
  - destruct (strip s) eqn:E; [|reflexivity].
    apply strip_blank in E. congruence.
Qed.

(** X7: the generation endpoints of [api.py] refuse a lecture with the
    status 400 exactly when it has no summary and every note of it is
    empty or white space; a summary, even of white space only, is
    enough for the request to reach the model. *)
Theorem no_notes_content_iff (lecture : LectureDTO) :
  no_notes_content lecture = true
  <-> summary lecture = EmptyString
      /\ Forall (fun note => blank (content note) = true) (notes lecture).
Proof.
  unfold no_notes_content. rewrite blank_truthy_strip.
  unfold extract_notes_text. rewrite blank_join by reflexivity.
  rewrite forallb_app, andb_true_iff, !forallb_forall, Forall_forall.
  destruct (summary lecture) as [|c r] eqn:E; cbn [truthy].
  - split.
    + intros [_ H]. split; [reflexivity|]. intros n Hn.
      apply H. now apply in_map.
    + intros [_ H]. split; [intros x []|]. intros x Hx.
      apply in_map_iff in Hx. destruct Hx as [n [<- Hn]]. now apply H.
  - split.
    + intros [H _]. specialize (H _ (or_introl eq_refl)).
      vm_compute in H. discriminate.
    + intros [H _]. discriminate.
Qed.

Lemma but_last_str1 (c : ascii) : but_last (str1 c) = EmptyString.
Proof. reflexivity. Qed.

(** X8: the identifier [list_samples] gives a sample is never refused by
    [get_sample], but it leads back to the class and the file it was
    made from only when the class name has no underscore: the identifier
    is cut at its first underscore, so the class read back never has
    one. *)
Theorem sample_id_round_trip (class_name stem : string) :
  (parse_sample_id (sample_id class_name stem) = Some (class_name, stem)
   <-> contains "_" class_name = false)
  /\ exists class_name' stem',
       parse_sample_id (sample_id class_name stem)
       = Some (class_name', stem')
       /\ contains "_" class_name' = false
       /\ sample_id class_name' stem' = sample_id class_name stem.
Proof.
  unfold parse_sample_id, split1, sample_id. split.
  - split.
    + destruct (partition "_" (class_name ++ "_" ++ stem))
        as [[b a]|] eqn:E; [|discriminate].
      intros H. injection H as -> ->. unfold contains.
      now rewrite (partition_before "_" _ _ _ ltac:(discriminate) E).
    + intros H.
      rewrite (partition_first "_" class_name stem ltac:(discriminate)).
      * reflexivity.
      * change (but_last "_") with EmptyString. now rewrite append_nil_r.
  - destruct (partition "_" (class_name ++ "_" ++ stem))
      as [[b a]|] eqn:E.
    + exists b, a. split; [reflexivity|]. split.
      * unfold contains.
        now rewrite (partition_before "_" _ _ _ ltac:(discriminate) E).
      * symmetry. exact (partition_spec _ _ _ _ E).
    + exfalso. apply partition_none_app_r in E. discriminate.
Qed.

(** *** Class directories *)






(** *** Sections of a note page *)

Lemma length_take (n : nat) (s : string) :
  String.length (take n s) = Nat.min n (String.length s).
Proof.
  revert s. induction n as [|n IH]; intros [|c r]; simpl; auto.
Qed.

Lemma take_0 (s : string) : take 0 s = EmptyString.
Proof. destruct s; reflexivity. Qed.

Lemma take_take_app (n : nat) (s x : string) :
  n <= String.length s -> take n (take n s ++ x) = take n s.
Proof.
  revert s. induction n as [|n IH]; intros s H.
  - now rewrite !take_0.
  - destruct s as [|c r]; simpl in H; [lia|].
    cbn [take append]. f_equal. apply IH. lia.
Qed.

Lemma limit_generic (n : nat) (s : string) :
  let limit := fun s => if Nat.ltb n (String.length s)
                        then take n s ++ "..." else s in
  String.length (limit s) <= n + 3
  /\ take n (limit s) = take n s
  /\ limit (limit s) = limit s.
Proof.
  cbv beta zeta. destruct (Nat.ltb n (String.length s)) eqn:E.
  - pose proof (proj1 (Nat.ltb_lt _ _) E) as E'.
    assert (L : String.length (take n s ++ "...") = n + 3).
    { rewrite length_append, length_take. simpl. lia. }
    split; [lia|]. split.
    + apply take_take_app. lia.
    + rewrite L. replace (Nat.ltb n (n + 3)) with true
        by (symmetry; apply Nat.ltb_lt; lia).
      rewrite take_take_app by lia. reflexivity.
  - pose proof (proj1 (Nat.ltb_ge _ _) E) as E'.
    split; [lia|]. split; [reflexivity|]. now rewrite E.
Qed.

(** X10: the content that [generate_flashcards] and [generate_quiz] of
    [voice_server.py] keep for a section of the notebook, before any
    prompt is built from it, has at most 2003 characters; it begins with
    the first 2000 characters of the text of the section, and a content
    that has been limited is not cut again. *)
Theorem limit_section_bound (content : string) :
  String.length (limit_section content) <= 2003
  /\ take 2000 (limit_section content) = take 2000 content
  /\ limit_section (limit_section content) = limit_section content.
Proof. exact (limit_generic 2000 content). Qed.

End EndpointFacts.

Module StreamFacts.
Import Py PyFacts PyStr PyStrFacts VoiceServer Observations Endpoints.
Import LineFacts SystemFacts.
Local Open Scope string_scope.

(** *** Lines of a response body *)

Lemma contains_occurs (c : ascii) (s : string) :
  contains (str1 c) s = occurs c s.
Proof.
  unfold contains. induction s as [|x r IH]; [reflexivity|].
  cbn [occurs]. destruct (Ascii.eqb x c) eqn:E.
  - rewrite partition_here; [reflexivity|].
    unfold str1. cbn [startswith]. rewrite Ascii.eqb_sym, E.
    destruct r; reflexivity.
  - rewrite partition_cons.
    + cbn [orb]. rewrite <- IH.
      destruct (partition (str1 c) r) as [[b a]|]; reflexivity.
    + unfold str1. cbn [startswith]. now rewrite Ascii.eqb_sym, E.
Qed.

Lemma split_lines (bodies : list string) :
  Forall (fun b => occurs newline b = false) bodies ->
  split (str1 newline)
    (concat_all (map (fun b => b ++ str1 newline) bodies))
  = (bodies ++ [EmptyString])%list.
Proof.
  induction 1 as [|b bodies Hb _ IH]; [reflexivity|].
  cbn [map concat_all]. rewrite append_assoc.
  rewrite split_unfold by discriminate.
  rewrite partition_first; [|discriminate|].
  - rewrite IH. reflexivity.
  - change (but_last (str1 newline)) with EmptyString.
    now rewrite append_nil_r, contains_occurs.
Qed.

Lemma well_formed_bodies (chunks : list string) :
  Forall well_formed_line chunks ->
  exists bodies,
    chunks = map (fun b => b ++ str1 newline) bodies
    /\ Forall (fun b => occurs newline b = false) bodies.
Proof.
  induction 1 as [|chunk chunks [d [H1 [H2 _]]] _ [bodies [IH1 IH2]]].
  - exists []. split; [reflexivity|constructor].
  - exists (json_dumps d :: bodies). split.
    + cbn [map]. now rewrite H1, IH1.
    + now constructor.
Qed.

(** X11: the response body of the voice endpoint can be read back line
    by line, however the transport has cut it: whatever the schedule,
    the chunks yielded so far are lines, and splitting their
    concatenation at the newlines gives back exactly these lines, in
    order, and an empty rest. *)
Theorem response_body_lines (c : Session) (sched : list Tid) :
  exists bodies,
    yields (snd (run c sched)) = map (fun b => b ++ str1 newline) bodies
    /\ split (str1 newline) (concat_all (yields (snd (run c sched))))
       = (bodies ++ [EmptyString])%list.
Proof.
  pose proof (run_reach c sched) as HR.
  destruct (well_formed_bodies (yields (snd (run c sched))))
    as [bodies [H1 H2]].
  - apply Forall_forall. intros chunk Hin.
    eapply puts_well_formed; [exact HR|].
    eapply in_yields_puts; eassumption.
  - exists bodies. split; [exact H1|].
    rewrite H1. now apply split_lines.
Qed.

(** *** The text-only endpoint *)

(** X12: what [ask_text_only] streams reads back as one [text] event for
    every delta of the model, empty ones too, in the order of the model,
    followed by exactly one closing event: [done] when the model stream
    ended, or the [error] with the message of the exception, and then no
    [done].  The body splits at the newlines into these lines. *)
Theorem text_only_stream (deltas : list string) (o : Outcome) :
  map decode_event (generate_text deltas o)
  = (map (fun d => Some (EText d)) deltas ++ [Some (match o with
                  | Completed => EDone
                  | Raised msg => EError msg
                  end)])%list
  /\ exists bodies,
       generate_text deltas o = map (fun b => b ++ str1 newline) bodies
       /\ split (str1 newline) (concat_all (generate_text deltas o))
          = (bodies ++ [EmptyString])%list.
Proof.
  unfold generate_text. split.
  - rewrite map_app, map_map. f_equal.
    + apply map_ext. intros d. apply decode_text_line.
    + destruct o as [|msg]; cbn [map].
      * now rewrite decode_done_line.
      * now rewrite decode_error_line.
  - destruct (well_formed_bodies
                (map text_line deltas
                 ++ [match o with
                     | Completed => done_line
                     | Raised msg => error_line msg
                     end])%list) as [bodies [H1 H2]].
    + apply Forall_app. split.
      * apply Forall_forall. intros l Hl. apply in_map_iff in Hl.
        destruct Hl as [d [<- _]]. apply text_line_well_formed.
      * constructor; [|constructor].
        destruct o; [apply done_line_well_formed
                    |apply error_line_well_formed].
    + exists bodies. split; [exact H1|]. rewrite H1.
      now apply split_lines.
Qed.

End StreamFacts.

Module Base64Facts.
Import Py PyFacts PyStr PyStrFacts VoiceServer Observations Endpoints.
Import LineFacts.
Local Open Scope string_scope.

Lemma below_64 (P : N -> Prop) :
  (forall k, k < 64 -> P (N.of_nat k)) -> forall n, (n < 64)%N -> P n.
Proof.
  intros H n Hn. rewrite <- (N2Nat.id n). apply H. lia.
Qed.

Lemma b64_char_plain (n : N) :
  (n < 64)%N ->
  escape_char (b64_char n) = str1 (b64_char n)
  /\ b64_char n <> "="%char.
Proof.
  revert n. apply below_64. intros k Hk.
  do 64 (destruct k as [|k]; [split; [reflexivity|discriminate]|]).
  lia.
Qed.

Lemma b64_char_inj (n m : N) :
  (n < 64)%N -> (m < 64)%N -> b64_char n = b64_char m -> n = m.
Proof.
  intros Hn Hm H. apply (f_equal N_of_ascii) in H. revert H.
  unfold b64_char.
  repeat match goal with
         | |- context [(?a <? ?b)%N] => destruct (N.ltb_spec a b)
         | |- context [(?a =? ?b)%N] => destruct (N.eqb_spec a b)
         end;
    rewrite ?N_ascii_embedding by lia;
    try (change (N_of_ascii "+") with 43%N);
    try (change (N_of_ascii "/") with 47%N);
    lia.
Qed.

Lemma to_N_lt (a : byte) : (Byte.to_N a < 256)%N.
Proof. pose proof (Byte.to_N_bounded a). lia. Qed.

Lemma to_N_inj (a b : byte) : Byte.to_N a = Byte.to_N b -> a = b.
Proof.
  intros H. pose proof (Byte.of_to_N a) as Ha.
  rewrite H, Byte.of_to_N in Ha. congruence.
Qed.

(** Induction on byte lists three bytes at a time, as [b64encode]
    recurses. *)
Lemma list_ind3 (A : Type) (P : list A -> Prop) :
  P [] -> (forall a, P [a]) -> (forall a b, P [a; b]) ->
  (forall a b c r, P r -> P (a :: b :: c :: r)) ->
  forall l, P l.
Proof.
  intros H0 H1 H2 H3 l.
  assert (H : P l /\ (forall a, P (a :: l)) /\ forall a b, P (a :: b :: l)).
  { induction l as [|x l [IH0 [IH1 IH2]]]; [auto|].
    split; [apply IH1|]. split; [intros a; apply IH2|].
    intros a b. now apply H3. }
  apply H.
Qed.

Ltac divmod x k :=
  let q := fresh "q" in
  let m := fresh "m" in
  pose proof (N.div_mod x k ltac:(lia));
  pose proof (N.mod_lt x k ltac:(lia));
  set (q := N.div x k) in *; set (m := N.modulo x k) in *;
  clearbody q m.

Ltac sextets x y z :=
  pose proof (to_N_lt x); pose proof (to_N_lt y); pose proof (to_N_lt z);
  divmod (Byte.to_N x) 4%N; divmod (Byte.to_N y) 16%N;
  divmod (Byte.to_N z) 64%N.

Lemma sextet_bounds (x y z : N) :
  (x < 256 -> y < 256 -> z < 256 ->
   x / 4 < 64 /\ x mod 4 * 16 < 64 /\ x mod 4 * 16 + y / 16 < 64
   /\ y mod 16 * 4 < 64 /\ y mod 16 * 4 + z / 64 < 64 /\ z mod 64 < 64)%N.
Proof.
  intros. divmod x 4%N. divmod y 16%N. divmod z 64%N. lia.
Qed.

Lemma b64encode_cons3 (a b c : byte) (r : list byte) :
  b64encode (a :: b :: c :: r)
  = String (b64_char (Byte.to_N a / 4))
      (String (b64_char (Byte.to_N a mod 4 * 16 + Byte.to_N b / 16))
         (String (b64_char (Byte.to_N b mod 16 * 4 + Byte.to_N c / 64))
            (String (b64_char (Byte.to_N c mod 64)) (b64encode r)))).
Proof. reflexivity. Qed.

Lemma b64encode_plain (data : list byte) :
  escape (b64encode data) = b64encode data.
Proof.
  induction data as [|a|a b|a b c r IH] using list_ind3.
  - reflexivity.
  - destruct (sextet_bounds _ _ _ (to_N_lt a) (to_N_lt a) (to_N_lt a))
      as [H1 [H2 _]].
    cbn [b64encode escape].
    rewrite (proj1 (b64_char_plain _ H1)), (proj1 (b64_char_plain _ H2)).
    reflexivity.
  - destruct (sextet_bounds _ _ _ (to_N_lt a) (to_N_lt b) (to_N_lt b))
      as [H1 [_ [H2 [H3 _]]]].
    cbn [b64encode escape].
    rewrite (proj1 (b64_char_plain _ H1)), (proj1 (b64_char_plain _ H2)),
      (proj1 (b64_char_plain _ H3)).
    reflexivity.
  - destruct (sextet_bounds _ _ _ (to_N_lt a) (to_N_lt b) (to_N_lt c))
      as [H1 [_ [H2 [_ [H3 H4]]]]].
    rewrite b64encode_cons3. cbn [escape].
    rewrite (proj1 (b64_char_plain _ H1)), (proj1 (b64_char_plain _ H2)),
      (proj1 (b64_char_plain _ H3)), (proj1 (b64_char_plain _ H4)), IH.
    reflexivity.
Qed.

Lemma b64encode_length (data : list byte) :
  String.length (b64encode data) = 4 * ((List.length data + 2) / 3).
Proof.
  induction data as [|a|a b|a b c r IH] using list_ind3;
    try reflexivity.
  rewrite b64encode_cons3. cbn [String.length List.length]. rewrite IH.
  replace (S (S (S (List.length r))) + 2) with (List.length r + 2 + 1 * 3)
    by lia.
  rewrite Nat.div_add by lia. lia.
Qed.

Lemma bound_1 (a : byte) : (Byte.to_N a / 4 < 64)%N.
Proof. pose proof (to_N_lt a). divmod (Byte.to_N a) 4%N. lia. Qed.

Lemma bound_2 (a : byte) : (Byte.to_N a mod 4 * 16 < 64)%N.
Proof. divmod (Byte.to_N a) 4%N. lia. Qed.

Lemma bound_3 (a b : byte) :
  (Byte.to_N a mod 4 * 16 + Byte.to_N b / 16 < 64)%N.
Proof.
  pose proof (to_N_lt b). divmod (Byte.to_N a) 4%N.
  divmod (Byte.to_N b) 16%N. lia.
Qed.

Lemma bound_4 (b : byte) : (Byte.to_N b mod 16 * 4 < 64)%N.
Proof. divmod (Byte.to_N b) 16%N. lia. Qed.

Lemma bound_5 (b c : byte) :
  (Byte.to_N b mod 16 * 4 + Byte.to_N c / 64 < 64)%N.
Proof.
  pose proof (to_N_lt c). divmod (Byte.to_N b) 16%N.
  divmod (Byte.to_N c) 64%N. lia.
Qed.

Lemma bound_6 (c : byte) : (Byte.to_N c mod 64 < 64)%N.
Proof. divmod (Byte.to_N c) 64%N. lia. Qed.

Ltac b64_bound :=
  first [apply bound_1 | apply bound_2 | apply bound_3
        | apply bound_4 | apply bound_5 | apply bound_6].

Ltac b64_pad_clash :=
  match goal with
  | H : b64_char ?n = "="%char |- _ =>
      exfalso; refine (proj2 (b64_char_plain n _) H); b64_bound
  | H : "="%char = b64_char ?n |- _ =>
      exfalso; refine (proj2 (b64_char_plain n _) (eq_sym H)); b64_bound
  end.

Ltac b64_numbers :=
  repeat match goal with
         | H : b64_char _ = b64_char _ |- _ =>
             apply b64_char_inj in H; [|b64_bound|b64_bound]
         end.

Lemma b64encode_inj (x y : list byte) :
  b64encode x = b64encode y -> x = y.
Proof.
  revert y.
  induction x as [|a|a b|a b c r IH] using list_ind3;
    intros [|a' [|b' [|c' r']]] H; try reflexivity;
    try discriminate H;
    rewrite ?b64encode_cons3 in H; cbn [b64encode] in H;
    injection H; clear H; intros; try b64_pad_clash; b64_numbers.
  - f_equal. apply to_N_inj.
    divmod (Byte.to_N a) 4%N. divmod (Byte.to_N a') 4%N. lia.
  - assert (Byte.to_N a = Byte.to_N a' /\ Byte.to_N b = Byte.to_N b')
      as [Ha Hb].
    { pose proof (to_N_lt b). pose proof (to_N_lt b').
      divmod (Byte.to_N a) 4%N. divmod (Byte.to_N a') 4%N.
      divmod (Byte.to_N b) 16%N. divmod (Byte.to_N b') 16%N. lia. }
    apply to_N_inj in Ha, Hb. now subst.
  - assert (Byte.to_N a = Byte.to_N a' /\ Byte.to_N b = Byte.to_N b'
            /\ Byte.to_N c = Byte.to_N c') as [Ha [Hb Hc]].
    { pose proof (to_N_lt b). pose proof (to_N_lt b').
      pose proof (to_N_lt c). pose proof (to_N_lt c').
      divmod (Byte.to_N a) 4%N. divmod (Byte.to_N a') 4%N.
      divmod (Byte.to_N b) 16%N. divmod (Byte.to_N b') 16%N.
      divmod (Byte.to_N c) 64%N. divmod (Byte.to_N c') 64%N. lia. }
    apply to_N_inj in Ha, Hb, Hc. subst. f_equal. f_equal. f_equal.
    now apply IH.
Qed.

(** X13: the Base64 text of an audio chunk goes into its line as it
    is, with no character of it escaped, so the line of [n] bytes of
    audio has 33 characters and four more for every three bytes begun;
    and the audio can be read back from the line, since two chunks with
    the same event are the same bytes. *)
Theorem audio_line_exact (audio_chunk other : list byte) :
  escape (b64encode audio_chunk) = b64encode audio_chunk
  /\ String.length (audio_line audio_chunk)
     = 33 + 4 * ((List.length audio_chunk + 2) / 3)
  /\ (decode_event (audio_line audio_chunk)
      = decode_event (audio_line other) <-> audio_chunk = other).
Proof.
  split; [apply b64encode_plain|]. split.
  - unfold audio_line, json_dumps, dump_member, encode_basestring_ascii.
    cbn [map join fst snd]. rewrite b64encode_plain.
    repeat (rewrite length_append || cbn [String.length str1]).
    change (String.length (escape "type")) with 4.
    change (String.length (escape "audio")) with 5.
    change (String.length (escape "content")) with 7.
    rewrite b64encode_length. lia.
  - rewrite !decode_audio_line. split.
    + intros H. injection H as H. now apply b64encode_inj.
    + now intros ->.
Qed.

End Base64Facts.

Module EvaluateFacts.
Import Py PyFacts PyStr PyStrFacts VoiceServer Observations Endpoints.
Import StreamFacts.
Local Open Scope string_scope.

(** *** JSON by regular expression *)

Lemma upto_last_none (c : ascii) (s : string) :
  upto_last c s = None <-> occurs c s = false.
Proof.
  induction s as [|x r IH]; [tauto|].
  cbn [upto_last occurs]. destruct (upto_last c r) as [t|].
  - split; [discriminate|]. intros H. apply orb_false_iff in H.
    destruct H as [_ H]. apply IH in H. discriminate.
  - assert (Hr : occurs c r = false) by now apply IH.
    rewrite Hr, orb_false_r. destruct (Ascii.eqb x c); split; congruence.
Qed.

Lemma upto_last_app (c : ascii) (body post : string) :
  occurs c post = false ->
  upto_last c (body ++ String c post) = Some (body ++ str1 c).
Proof.
  intros H. induction body as [|x body IH].
  - cbn [append upto_last]. apply upto_last_none in H. rewrite H.
    now rewrite Ascii.eqb_refl.
  - cbn [append upto_last]. now rewrite IH.
Qed.

(** X14: the JSON that [evaluate_answers], [generate_flashcards] and
    [generate_quiz] of [voice_server.py] look for in a response is the
    text from the first opening bracket to the last closing one: with no
    opening bracket before and no closing bracket after, all that is
    between the two comes out, further brackets included. *)
Theorem search_greedy_round_trip (opening closing : ascii)
  (pre body post : string) :
  occurs opening pre = false ->
  occurs closing post = false ->
  search_greedy opening closing
    (pre ++ String opening (body ++ String closing post))
  = Some (String opening (body ++ str1 closing)).
Proof.
  intros Hpre Hpost. unfold search_greedy.
  change (pre ++ String opening (body ++ String closing post))
    with (pre ++ str1 opening ++ (body ++ String closing post)).
  rewrite partition_first; [|discriminate|].
  - now rewrite upto_last_app.
  - change (but_last (str1 opening)) with EmptyString.
    now rewrite append_nil_r, contains_occurs.
Qed.

(** Two objects in one response come out as one text. *)
Lemma search_greedy_round_trip_witness :
  search_greedy "{" "}" ("Sure: " ++ String "{" ("a} or {b" ++ String "}" "."))
  = Some "{a} or {b}".
Proof.
  apply (search_greedy_round_trip "{" "}" "Sure: " "a} or {b" ".");
    reflexivity.
Defined.

(** *** [evaluate_answers] *)

Section EvaluateProperties.

Variable Json : Type.
Variable bool_of : Json -> bool.
Variable str_of : Json -> string.
Variable Key : Type.
Variable Key_eq_dec : forall a b : Key, {a = b} + {a <> b}.
Variable key_of : Json -> Key + string.

Lemma scores_get_set (i j : Key) (v : Score Json)
  (scores : Scores Json Key) :
  scores_get Json Key Key_eq_dec i (scores_set Json Key Key_eq_dec j v scores)
  = if Key_eq_dec i j then Some v
    else scores_get Json Key Key_eq_dec i scores.
Proof.
  induction scores as [|[k w] r IH]; cbn [scores_set scores_get].
  - reflexivity.
  - destruct (Key_eq_dec j k) as [E1|E1]; cbn [scores_get].
    + subst k. destruct (Key_eq_dec i j); reflexivity.
    + rewrite IH. destruct (Key_eq_dec i k) as [E2|E2]; [|reflexivity].
      subst k. destruct (Key_eq_dec i j); [congruence|reflexivity].
Qed.

Section Loop.

Variable loads : string -> Json + string.
Variable create : nat -> string -> Reply.

Let loop := evaluate_loop Json bool_of str_of Key Key_eq_dec key_of
              loads create.
Let get := scores_get Json Key Key_eq_dec.

(** The loop ends with scores only if every item was an object with a
    hashable index; the model has then been called once for every item
    with an answer, and the scores have one more entry for the key of
    every item.  When it is left by an exception, the model has been
    called at most once for every item with an answer. *)
Lemma evaluate_loop_answer (items : list (Item Json)) :
  forall calls scores,
    match loop items calls scores with
    | (inl s, n) =>
        n = calls + List.length (filter (answered Json bool_of) items)
        /\ Forall (fun item => item_key Json Key key_of item <> None) items
        /\ forall k, get k s <> None
                     <-> (get k scores <> None
                          \/ exists item,
                               In item items
                               /\ item_key Json Key key_of item = Some k)
    | (inr _, n) =>
        calls <= n
        <= calls + List.length (filter (answered Json bool_of) items)
    end.
Proof.
  unfold loop, get.
  induction items as [|item rest IH]; intros calls scores.
  - cbn. split; [lia|]. split; [constructor|]. intros k. split; [auto|].
    intros [H|[item [[] _]]]. exact H.
  - destruct item as [qt sa ua index|error];
      [|cbn [evaluate_loop filter answered]; lia].
    assert (K : forall v n,
               match
                 match assign Json Key Key_eq_dec key_of index v scores with
                 | inl scores' =>
                     evaluate_loop Json bool_of str_of Key Key_eq_dec key_of
                       loads create rest n scores'
                 | inr msg => (inr msg, n)
                 end
               with
               | (inl s, m) =>
                   m = n + List.length (filter (answered Json bool_of) rest)
                   /\ Forall
                        (fun item => item_key Json Key key_of item <> None)
                        (Object qt sa ua index :: rest)
                   /\ forall k,
                        scores_get Json Key Key_eq_dec k s <> None
                        <-> (scores_get Json Key Key_eq_dec k scores <> None
                             \/ exists item,
                                  In item (Object qt sa ua index :: rest)
                                  /\ item_key Json Key key_of item
                                     = Some k)
               | (inr _, m) =>
                   n <= m
                   <= n + List.length (filter (answered Json bool_of) rest)
               end).
    { intros v n. unfold assign.
      destruct (key_of index) as [k0|msg] eqn:Ek; [|lia].
      specialize (IH n (scores_set Json Key Key_eq_dec k0 v scores)).
      destruct (evaluate_loop _ _ _ _ _ _ _ _ rest n _) as [[s|e] m];
        [|exact IH].
      destruct IH as [H1 [H2 H3]]. split; [exact H1|]. split.
      - constructor; [|exact H2]. cbn [item_key]. rewrite Ek. discriminate.
      - intros k. rewrite H3, scores_get_set.
        destruct (Key_eq_dec k k0) as [E|E].
        + subst k0. split; [|intros _; left; discriminate].
          intros _. right. exists (Object qt sa ua index).
          split; [now left|]. cbn [item_key]. now rewrite Ek.
        + split.
          * intros [H|[item [Hin Hk]]]; [now left|].
            right. exists item. split; [now right|exact Hk].
          * intros [H|[item [[<-|Hin] Hk]]]; [now left| |].
            -- cbn [item_key] in Hk. rewrite Ek in Hk. congruence.
            -- right. exists item. split; assumption. }
    cbn [evaluate_loop filter answered].
    destruct (bool_of ua).
    + cbn [List.length].
      destruct (create calls _) as [text|msg]; [|lia].
      destruct (search_greedy "{" "}" (strip text)) as [group|].
      * destruct (loads group) as [evaluation|msg]; [|lia].
        specialize (K (Evaluation evaluation) (S calls)).
        destruct (match assign _ _ _ _ index _ scores with
                  | inl scores' => _
                  | inr msg => _
                  end) as [[s|e] m].
        -- destruct K as [K1 K2]. split; [lia|exact K2].
        -- lia.
      * specialize (K (Fixed 0 "Could not evaluate answer.") (S calls)).
        destruct (match assign _ _ _ _ index _ scores with
                  | inl scores' => _
                  | inr msg => _
                  end) as [[s|e] m].
        -- destruct K as [K1 K2]. split; [lia|exact K2].
        -- lia.
    + exact (K (Fixed 0 "No answer provided.") calls).
Qed.

(** With no answer in the items, the loop calls nothing and depends on
    nothing but the items, and it writes one kind of entry only. *)
Lemma evaluate_loop_unanswered (items : list (Item Json)) :
  Forall (fun item => answered Json bool_of item = false) items ->
  forall calls scores,
    snd (loop items calls scores) = calls
    /\ (forall loads' create',
          evaluate_loop Json bool_of str_of Key Key_eq_dec key_of
            loads' create' items calls scores
          = loop items calls scores)
    /\ forall s,
         fst (loop items calls scores) = inl s ->
         forall k, get k s = get k scores
                   \/ get k s = Some (Fixed 0 "No answer provided.").
Proof.
  unfold loop, get.
  induction 1 as [|item rest Hq _ IH]; intros calls scores.
  - cbn. split; [reflexivity|]. split; [reflexivity|].
    intros s H k. injection H as <-. now left.
  - destruct item as [qt sa ua index|error].
    + cbn [answered] in Hq. cbn [evaluate_loop]. rewrite Hq.
      unfold assign. destruct (key_of index) as [k0|msg].
      * destruct (IH calls
                    (scores_set Json Key Key_eq_dec k0
                       (Fixed 0 "No answer provided.") scores))
          as [H1 [H2 H3]].
        split; [exact H1|]. split; [exact H2|].
        intros s Hs k. destruct (H3 s Hs k) as [H|H]; [|now right].
        rewrite H, scores_get_set.
        destruct (Key_eq_dec k k0); [now right|now left].
      * cbn. split; [reflexivity|]. split; [reflexivity|]. discriminate.
    + cbn. split; [reflexivity|]. split; [reflexivity|]. discriminate.
Qed.

End Loop.

End EvaluateProperties.

(** X15: [evaluate_answers] of [voice_server.py] is all or nothing,
    whatever the body [data] holds as [questions].  When it answers
    scores, the request was a list of objects with
    hashable indexes, the model has been called exactly once for every
    item with an answer and not at all for the others, and the scores
    have an entry for the index of every item and for nothing else.
    When it answers an error, no score is answered, those of the items
    that needed no call too, and the model has been called at most once
    for every item with an answer. *)
Theorem evaluate_answers_all_or_nothing (Json : Type)
  (bool_of : Json -> bool) (str_of : Json -> string) (Key : Type)
  (Key_eq_dec : forall a b : Key, {a = b} + {a <> b})
  (key_of : Json -> Key + string) (loads : string -> Json + string)
  (create : nat -> string -> Reply)
  (jsonify : Scores Json Key -> option string)
  (questions : Questions Json) :
  match evaluate_answers Json bool_of str_of Key Key_eq_dec key_of loads
          create jsonify questions with
  | (EvalScores scores, calls) =>
      exists items,
        questions = Items items
        /\ Forall (fun item => item_key Json Key key_of item <> None) items
        /\ calls = List.length (filter (answered Json bool_of) items)
        /\ jsonify scores = None
        /\ forall k,
             scores_get Json Key Key_eq_dec k scores <> None
             <-> exists item,
                   In item items /\ item_key Json Key key_of item = Some k
  | (EvalError _, calls) =>
      match questions with
      | Items items =>
          calls <= List.length (filter (answered Json bool_of) items)
      | NotIterable _ => calls = 0
      end
  end.
Proof.
  unfold evaluate_answers. destruct questions as [items|error];
    [|reflexivity].
  pose proof (evaluate_loop_answer Json bool_of str_of Key Key_eq_dec
                key_of loads create items 0 []) as H.
  cbv zeta in H.
  destruct (evaluate_loop _ _ _ _ _ _ _ _ items 0 []) as [[s|e] n].
  - destruct H as [H1 [H2 H3]].
    destruct (jsonify s) as [msg|] eqn:Ej; [lia|].
    exists items. split; [reflexivity|]. split; [exact H2|].
    split; [exact H1|]. split; [exact Ej|].
    intros k. rewrite H3. cbn [scores_get]. tauto.
  - lia.
Qed.

(** X16: items left without an answer cost no call of the model: when no
    item of the request has an answer, [evaluate_answers] calls the model
    not once, its answer is the same whatever the model and [json.loads]
    would do, and every score it answers is the score 0 with the
    feedback that no answer was provided.  It can still answer an error:
    for an item that is no object, for an index that is not hashable, or
    when the scores cannot be serialised. *)
Theorem evaluate_answers_unanswered (Json : Type)
  (bool_of : Json -> bool) (str_of : Json -> string) (Key : Type)
  (Key_eq_dec : forall a b : Key, {a = b} + {a <> b})
  (key_of : Json -> Key + string) (loads : string -> Json + string)
  (create : nat -> string -> Reply)
  (jsonify : Scores Json Key -> option string)
  (items : list (Item Json)) :
  Forall (fun item => answered Json bool_of item = false) items ->
  snd (evaluate_answers Json bool_of str_of Key Key_eq_dec key_of loads
         create jsonify (Items items)) = 0
  /\ (forall loads' create',
        evaluate_answers Json bool_of str_of Key Key_eq_dec key_of loads'
          create' jsonify (Items items)
        = evaluate_answers Json bool_of str_of Key Key_eq_dec key_of loads
            create jsonify (Items items))
  /\ (forall scores k v,
        fst (evaluate_answers Json bool_of str_of Key Key_eq_dec key_of
               loads create jsonify (Items items)) = EvalScores scores ->
        scores_get Json Key Key_eq_dec k scores = Some v ->
        v = Fixed 0 "No answer provided.")
  /\ (Forall (fun item => item_key Json Key key_of item <> None) items ->
      exists scores,
        fst (evaluate_answers Json bool_of str_of Key Key_eq_dec key_of
               loads create jsonify (Items items))
        = match jsonify scores with
          | None => EvalScores scores
          | Some msg => EvalError msg
          end).
Proof.
  intros H. unfold evaluate_answers.
  destruct (evaluate_loop_unanswered Json bool_of str_of Key Key_eq_dec
              key_of loads create items H 0 []) as [H1 [H2 H3]].
  cbv zeta in H1, H2, H3.
  split; [|split; [|split]].
  - destruct (evaluate_loop _ _ _ _ _ _ _ _ items 0 []) as [[s|e] n];
      cbn [snd] in *; [destruct (jsonify s)|]; exact H1.
  - intros loads' create'. now rewrite H2.
  - intros scores k v.
    destruct (evaluate_loop _ _ _ _ _ _ loads create items 0 [])
      as [[s|e] n]; [|discriminate].
    destruct (jsonify s); [discriminate|]. cbn [fst].
    intros E. injection E as <-. intros Hv.
    destruct (H3 s eq_refl k) as [Hk|Hk]; rewrite Hk in Hv.
    + discriminate.
    + congruence.
  - intros Hk.
    pose proof (evaluate_loop_answer Json bool_of str_of Key Key_eq_dec
                  key_of loads create items 0 []) as Ha.
    cbv zeta in Ha.
    assert (Hs : exists s n,
               evaluate_loop Json bool_of str_of Key Key_eq_dec key_of
                 loads create items 0 [] = (inl s, n)).
    { clear H1 H2 H3 Ha. generalize (@nil (Key * Score Json)) at 1.
      generalize 0 at 1.
      induction items as [|item rest IH]; intros n sc.
      - cbn. eauto.
      - inversion H as [|? ? Hq Hr]. inversion Hk as [|? ? Hi Hkr]. subst.
        destruct item as [qt sa ua index|error]; [|now elim Hi].
        cbn [answered] in Hq. cbn [evaluate_loop]. rewrite Hq.
        unfold assign. cbn [item_key] in Hi.
        destruct (key_of index) as [k0|msg]; [|now elim Hi].
        apply IH; assumption. }
    destruct Hs as [s [n Hs]]. rewrite Hs. exists s.
    destruct (jsonify s); reflexivity.
Qed.

(** Three items left blank, with a model that fails every call: two
    numbered questions, and one that is no object. *)
Lemma evaluate_answers_unanswered_witness :
  snd (evaluate_answers string (fun v => truthy v) (fun v => v) string
         string_dec (fun v => inl v) (fun _ => inr "no JSON")
         (fun _ _ => CallFailed "overloaded") (fun _ => None)
         (Items [Object "What is a monad?" "A monoid." "" "0";
                 Object "What is a functor?" "A map." "" "1"])) = 0
  /\ fst (evaluate_answers string (fun v => truthy v) (fun v => v) string
            string_dec (fun v => inl v) (fun _ => inr "no JSON")
            (fun _ _ => CallFailed "overloaded") (fun _ => None)
            (Items [Object "What is a monad?" "A monoid." "" "0";
                    Object "What is a functor?" "A map." "" "1"]))
     = EvalScores [("0", Fixed 0 "No answer provided.");
                   ("1", Fixed 0 "No answer provided.")]
  /\ evaluate_answers string (fun v => truthy v) (fun v => v) string
       string_dec (fun v => inl v) (fun _ => inr "no JSON")
       (fun _ _ => CallFailed "overloaded") (fun _ => None)
       (Items [Object "What is a monad?" "A monoid." "" "0";
               NotObject "'str' object has no attribute 'get'"])
     = (EvalError "'str' object has no attribute 'get'", 0).
Proof.
  split; [|split; reflexivity].
  apply (evaluate_answers_unanswered string (fun v => truthy v)
           (fun v => v) string string_dec (fun v => inl v)
           (fun _ => inr "no JSON") (fun _ _ => CallFailed "overloaded")
           (fun _ => None)
           [Object "What is a monad?" "A monoid." "" "0";
            Object "What is a functor?" "A map." "" "1"]).
  constructor; [reflexivity|]. constructor; [reflexivity|]. constructor.
Defined.

End EvaluateFacts.
